(** * Mean-field micromagnetic relaxation: a shallow embedding

    This development models [src/Energy_Term.py] (the magnetisation wrapper
    [M], its [curl] and [laplace], and the energy terms [Exchange], [DMI],
    [Zeeman]) and [src/Mean_Field.py] (the driver [Min_Driver]).

    Numbers.  The numpy code computes in float64.  The definitions are
    written once, over a small interface [Num] of the scalar operations the
    code uses, and instantiated twice:
    - [Num_R], the real numbers, used for the algebraic statements;
    - [Num_F], the kernel's IEEE-754 binary64 floats ([PrimFloat]), which
      reproduce numpy's element operations (including [nan] for [0/0]) and
      evaluate with [vm_compute].

    Arrays.  A numpy array of shape (Nx, Ny, Nz, 3) is a triply nested list
    of 3-vectors ([grid V3]); an array of shape (Nx, Ny, Nz) or
    (Nx, Ny, Nz, 1) is a [grid K].  Fallible numpy operations (broadcasting
    errors) return [option]. *)

From Stdlib Require Import List ZArith Bool Arith Lia Reals Lra.
From Stdlib Require Floats.
Import ListNotations.

(** ** Scalars *)

Class Num (K : Type) := {
  n0 : K;
  nadd : K -> K -> K;
  nsub : K -> K -> K;
  nmul : K -> K -> K;
  ndiv : K -> K -> K;
  nopp : K -> K;
  nsqrt : K -> K;
  nabs : K -> K;
  (** [a <= b]; false when either side is a nan *)
  nleb : K -> K -> bool;
  (** [a == b] (Python float equality) *)
  neqb : K -> K -> bool;
  (** the decimal literal [m]e[e], rounded to the type *)
  nlit : Z -> Z -> K;
  (** [np.pi] *)
  npi : K
}.

Arguments n0 {K _}.
Arguments npi {K _}.

Definition R_leb (a b : R) : bool := if Rle_dec a b then true else false.
Definition R_eqb (a b : R) : bool := if Req_dec_T a b then true else false.

Definition R_lit (m e : Z) : R :=
  if (0 <=? e)%Z then IZR (m * 10 ^ e) else IZR m / IZR (10 ^ (- e)).

#[global] Instance Num_R : Num R := {
  n0 := 0%R;
  nadd := Rplus;
  nsub := Rminus;
  nmul := Rmult;
  ndiv := Rdiv;
  nopp := Ropp;
  nsqrt := sqrt;
  nabs := Rabs;
  nleb := R_leb;
  neqb := R_eqb;
  nlit := R_lit;
  npi := PI
}.

(** Correctly rounded conversion of an integer to binary64. *)
Definition F_of_Z (z : Z) : PrimFloat.float :=
  FloatOps.SF2Prim (SpecFloat.binary_normalize FloatOps.prec FloatOps.emax z 0 false).

(** [np.pi] is the binary64 number 7074237752028440 * 2^-51. *)
Definition F_pi : PrimFloat.float :=
  FloatOps.SF2Prim
    (SpecFloat.binary_normalize FloatOps.prec FloatOps.emax 7074237752028440 (-51) false).

(** For a negative exponent the literal is the quotient of two integers that
    binary64 holds exactly (all literals of the source have [|e| <= 22]), so
    the one rounded division gives the same float as Python's literal. *)
Definition F_lit (m e : Z) : PrimFloat.float :=
  if (0 <=? e)%Z then F_of_Z (m * 10 ^ e)
  else PrimFloat.div (F_of_Z m) (F_of_Z (10 ^ (- e))).

#[global] Instance Num_F : Num PrimFloat.float := {
  n0 := PrimFloat.zero;
  nadd := PrimFloat.add;
  nsub := PrimFloat.sub;
  nmul := PrimFloat.mul;
  ndiv := PrimFloat.div;
  nopp := PrimFloat.opp;
  nsqrt := PrimFloat.sqrt;
  nabs := PrimFloat.abs;
  nleb := PrimFloat.leb;
  neqb := PrimFloat.eqb;
  nlit := F_lit;
  npi := F_pi
}.

(** ** Arrays *)

(** A vector along the last axis (size 3) of a field array. *)
Record V3 (K : Type) := mkV3 { vx : K; vy : K; vz : K }.
Arguments mkV3 {K} _ _ _.
Arguments vx {K} _.
Arguments vy {K} _.
Arguments vz {K} _.

(** An array over the three spatial axes, outermost axis first. *)
Definition grid (A : Type) := list (list (list A)).

Notation "'let*' x ':=' a 'in' b" :=
  (match a with Some x => b | None => None end)
  (at level 200, x name, a at level 100, b at level 200).

Section Numpy.
Context {K : Type} {NK : Num K}.

Fixpoint zipw {A B C} (f : A -> B -> C) (a : list A) (b : list B) : list C :=
  match a, b with
  | x :: a', y :: b' => f x y :: zipw f a' b'
  | _, _ => []
  end.

Definition gmap3 {A B} (f : A -> B) (g : grid A) : grid B :=
  map (map (map f)) g.

(** Elementwise binary operation on two arrays of the same shape (every
    caller below combines arrays of the field's own shape). *)
Definition gzip3 {A B C} (f : A -> B -> C) (a : grid A) (b : grid B) : grid C :=
  zipw (zipw (zipw f)) a b.

Definition shape3 {A} (g : grid A) : nat * nat * nat :=
  (length g, length (hd [] g), length (hd [] (hd [] g))).

(** [p] is a rectangular array of shape (ny, nz). *)
Definition wf2 {A} (p : list (list A)) (ny nz : nat) : Prop :=
  length p = ny /\ Forall (fun r => length r = nz) p.

(** [g] is a rectangular array of shape (nx, ny, nz). *)
Definition wf3 {A} (g : grid A) (nx ny nz : nat) : Prop :=
  length g = nx /\ Forall (fun p => wf2 p ny nz) g.

(** The array of shape (nx, ny, nz) holding [x] in every cell. *)
Definition const3 {A} (nx ny nz : nat) (x : A) : grid A :=
  repeat (repeat (repeat x nz) ny) nx.

(** The cell (i, j, k) of an array, [d] out of range. *)
Definition at3 {A} (g : grid A) (i j k : nat) (d : A) : A :=
  nth k (nth j (nth i g []) []) d.

Definition flat3 {A} (g : grid A) : list A := concat (concat g).

(** [np.zeros((nx, ny, nz))] *)
Definition zeros3 (nx ny nz : nat) : grid K := const3 nx ny nz n0.

Definition v0 : V3 K := mkV3 n0 n0 n0.

(** [np.zeros_like] of a field array. *)
Definition zeros_like (g : grid (V3 K)) : grid (V3 K) := gmap3 (fun _ => v0) g.

Definition vmap (f : K -> K) (v : V3 K) : V3 K := mkV3 (f (vx v)) (f (vy v)) (f (vz v)).
Definition vzip (f : K -> K -> K) (a b : V3 K) : V3 K :=
  mkV3 (f (vx a) (vx b)) (f (vy a) (vy b)) (f (vz a) (vz b)).
Definition vcomps (v : V3 K) : list K := [vx v; vy v; vz v].

(** Components of a field array, flattened in C order. *)
Definition flatV (g : grid (V3 K)) : list K := concat (map vcomps (flat3 g)).

(** [np.linalg.norm(v)] of one vector: [sqrt] of the sum of squares, summed
    left to right. *)
Definition norm3 (v : V3 K) : K :=
  nsqrt (nadd (nadd (nmul (vx v) (vx v)) (nmul (vy v) (vy v))) (nmul (vz v) (vz v))).

(** [np.expand_dims(np.linalg.norm(F, axis=3), axis=3)] *)
Definition norm_axis3 (g : grid (V3 K)) : grid K := gmap3 norm3 g.

(** [np.sum(v, axis=3, keepdims=True)] of one vector. *)
Definition sum3 (v : V3 K) : K := nadd (nadd (vx v) (vy v)) (vz v).

(** [np.isclose(x, y, rtol, atol)] as numpy 2 computes it:
    [(|x - y| <= atol + rtol * |y|) & isfinite(y) | (x == y)]; [isfinite(y)]
    is [y - y == 0], which fails exactly on an infinity or a nan. *)
Definition isclose (rtol atol x y : K) : bool :=
  orb (andb (nleb (nabs (nsub x y)) (nadd atol (nmul rtol (nabs y))))
            (neqb (nsub y y) n0))
      (neqb x y).

Definition rtol_default : K := nlit 1 (-5).
Definition atol_default : K := nlit 1 (-8).

(** [np.allclose(a, 0)] with the default tolerances. *)
Definition allclose0 (l : list K) : bool :=
  let rtol := rtol_default in
  let atol := atol_default in
  forallb (fun x => isclose rtol atol x n0) l.

(** [np.maximum]: propagates a nan. *)
Definition nmax (a b : K) : K :=
  if nleb b a then a else if nleb a b then b else nadd a b.

(** [np.max] of an array; a zero-size array raises. *)
Definition np_max (l : list K) : option K :=
  match l with
  | [] => None
  | x :: l' => Some (fold_left nmax l' x)
  end.

(** [np.sum] of all elements (numpy sums pairwise in floats; in the real
    model the order is irrelevant). *)
Definition np_sum (l : list K) : K := fold_left nadd l n0.

(** *** Padding by one cell on each side of the three spatial axes *)

(** [np.pad(..., 'edge')] along one axis: the ghost cells repeat the first
    and last entries. *)
Definition pad_edge1 {A} (l : list A) : list A :=
  match l with
  | [] => []
  | x :: _ => x :: l ++ [last l x]
  end.

Definition pad_edge3 {A} (g : grid A) : grid A :=
  pad_edge1 (map (fun p => pad_edge1 (map pad_edge1 p)) g).

(** [np.pad(..., 'constant', constant_values=z)] along one axis. *)
Definition pad_const1 {A} (z : A) (l : list A) : list A := z :: l ++ [z].

Definition pad_const3 {A} (z : A) (g : grid A) : grid A :=
  let '(_, ny, nz) := shape3 g in
  pad_const1 (repeat (repeat z (nz + 2)) (ny + 2))
    (map (fun p => pad_const1 (repeat z (nz + 2)) (map (pad_const1 z) p)) g).

(** *** Python slices of a padded axis *)
Inductive slc := S_mid (* [1:-1] *) | S_lo (* [0:-2], [:-2] *) | S_hi (* [2:] *).

(** The first index of the padded axis a slice keeps, and its offset from
    the cell the slice is centred on. *)
Definition soff (s : slc) : nat := match s with S_mid => 1 | S_lo => 0 | S_hi => 2 end.
Definition zoff (s : slc) : Z := match s with S_mid => 0 | S_lo => -1 | S_hi => 1 end.

Definition slice1 {A} (s : slc) (l : list A) : list A :=
  match s with
  | S_mid => skipn 1 (firstn (length l - 1) l)
  | S_lo => firstn (length l - 2) l
  | S_hi => skipn 2 l
  end.

Definition slice3 {A} (s0 s1 s2 : slc) (g : grid A) : grid A :=
  slice1 s0 (map (fun p => slice1 s1 (map (slice1 s2) p)) g).

(** *** In-place addition [out += rhs] with numpy broadcasting: along each
    axis [rhs] has the length of [out] or length 1; otherwise numpy raises. *)
Fixpoint mapM {A B} (f : A -> option B) (l : list A) : option (list B) :=
  match l with
  | [] => Some []
  | x :: l' => let* y := f x in let* ys := mapM f l' in Some (y :: ys)
  end.

Fixpoint mapM2 {A B C} (f : A -> B -> option C) (a : list A) (b : list B)
  : option (list C) :=
  match a, b with
  | [], [] => Some []
  | x :: a', y :: b' => let* z := f x y in let* zs := mapM2 f a' b' in Some (z :: zs)
  | _, _ => None
  end.

Definition iadd_axis {A B} (f : A -> B -> option A) (out : list A) (rhs : list B)
  : option (list A) :=
  if length rhs =? length out then mapM2 f out rhs
  else match rhs with
       | [r] => mapM (fun o => f o r) out
       | _ => None
       end.

Definition iadd3 (out rhs : grid K) : option (grid K) :=
  iadd_axis (iadd_axis (iadd_axis (fun o r => Some (nadd o r)))) out rhs.

End Numpy.

(** ** [src/Energy_Term.py] *)

Section Energy_Term.
Context {K : Type} {NK : Num K}.

Definition two : K := nlit 2 0.

(** Module constants. *)
Definition mu0 : K := nmul (nmul (nlit 4 0) npi) (nlit 1 (-7)).
Definition dx : K := nlit 25 (-10).
Definition dy : K := nlit 25 (-10).
Definition dz : K := nlit 25 (-10).
Definition Nx : nat := 60.
Definition Ny : nat := 60.
Definition Nz : nat := 12.

(** *** Class [M]: the magnetisation field (its attribute [M] is the array) *)

Definition get_M (M : grid (V3 K)) : grid (V3 K) := M.

(** [get_Ms]: the per-cell norm, shape (Nx, Ny, Nz, 1). *)
Definition get_Ms (M : grid (V3 K)) : grid K := norm_axis3 M.

(** [get_m]: the unit field; the all-zero array when [np.allclose(M, 0)]. *)
Definition get_m (M : grid (V3 K)) : grid (V3 K) :=
  if allclose0 (flatV (get_M M)) then zeros_like (get_M M)
  else gzip3 (fun v s => vmap (fun c => ndiv c s) v) M (get_Ms M).

(** [set_M] replaces the array: see the store of the driver below. *)

(** [vcomp c]: the component [c] of the last axis ([F[..., c]]). *)
Definition vcomp (c : nat) (v : V3 K) : K :=
  match c with 0 => vx v | 1 => vy v | _ => vz v end.

(** [(F[hi] - F[lo]) / (2 * h)] on component [c] of the padded array. *)
Definition cdiff (mp : grid (V3 K)) (hi lo : grid (V3 K) -> grid (V3 K))
    (c : nat) (h : K) : grid K :=
  let h2 := nmul two h in
  gmap3 (fun x => ndiv x h2)
    (gzip3 nsub (gmap3 (vcomp c) (hi mp)) (gmap3 (vcomp c) (lo mp))).

(** [curl]: central differences of [get_m] padded by one cell of zeros
    (Dirichlet); the six difference arrays are allocated with the module
    shape (Nx, Ny, Nz) and filled by in-place, broadcasting additions. *)
Definition curl (M : grid (V3 K)) : option (grid (V3 K)) :=
  let crl := zeros_like (get_m M) in
  let mp := pad_const3 v0 (get_m M) in
  let* dzdy := iadd3 (zeros3 Nx Ny Nz)
      (cdiff mp (slice3 S_mid S_hi S_mid) (slice3 S_mid S_lo S_mid) 2 dy) in
  let* dydz := iadd3 (zeros3 Nx Ny Nz)
      (cdiff mp (slice3 S_mid S_mid S_hi) (slice3 S_mid S_mid S_lo) 1 dz) in
  let* dxdz := iadd3 (zeros3 Nx Ny Nz)
      (cdiff mp (slice3 S_mid S_mid S_hi) (slice3 S_mid S_mid S_lo) 0 dz) in
  let* dzdx := iadd3 (zeros3 Nx Ny Nz)
      (cdiff mp (slice3 S_hi S_mid S_mid) (slice3 S_lo S_mid S_mid) 2 dx) in
  let* dxdy := iadd3 (zeros3 Nx Ny Nz)
      (cdiff mp (slice3 S_mid S_hi S_mid) (slice3 S_mid S_lo S_mid) 0 dy) in
  let* dydx := iadd3 (zeros3 Nx Ny Nz)
      (cdiff mp (slice3 S_hi S_mid S_mid) (slice3 S_lo S_mid S_mid) 1 dx) in
  let* c0 := iadd3 (gmap3 vx crl) (gzip3 nsub dzdy dydz) in
  let* c1 := iadd3 (gmap3 vy crl) (gzip3 nsub dxdz dzdx) in
  let* c2 := iadd3 (gmap3 vz crl) (gzip3 nsub dydx dxdy) in
  Some (gzip3 (fun a bc => mkV3 a (fst bc) (snd bc)) c0 (gzip3 pair c1 c2)).

(** [(F[lo] + F[hi] - 2 * F[1:-1,1:-1,1:-1]) / h2] on the padded array. *)
Definition second_diff (mp : grid (V3 K)) (lo hi : grid (V3 K) -> grid (V3 K))
    (h2 : K) : grid (V3 K) :=
  let t := two in
  gmap3 (vmap (fun x => ndiv x h2))
    (gzip3 (vzip nsub) (gzip3 (vzip nadd) (lo mp) (hi mp))
       (gmap3 (vmap (nmul t)) (slice3 S_mid S_mid S_mid mp))).

(** [laplace]: second-order central differences of [get_m] padded by edge
    replication (Neumann), accumulated into a zero array. *)
Definition laplace (M : grid (V3 K)) : grid (V3 K) :=
  let lap := zeros_like (get_m M) in
  let mp := pad_edge3 (get_m M) in
  let lap := gzip3 (vzip nadd) lap
      (second_diff mp (slice3 S_lo S_mid S_mid) (slice3 S_hi S_mid S_mid) (nmul dx dx)) in
  let lap := gzip3 (vzip nadd) lap
      (second_diff mp (slice3 S_mid S_lo S_mid) (slice3 S_mid S_hi S_mid) (nmul dy dy)) in
  gzip3 (vzip nadd) lap
      (second_diff mp (slice3 S_mid S_mid S_lo) (slice3 S_mid S_mid S_hi) (nmul dz dz)).

(** *** [np.tile(H, n).reshape((nx, ny, nz, 3))] *)

Fixpoint chunk {A} (k n : nat) (l : list A) : list (list A) :=
  match n with
  | O => []
  | S n' => firstn k l :: chunk k n' (skipn k l)
  end.

Definition tile (H : V3 K) (n : nat) : list K := concat (repeat (vcomps H) n).

Definition reshape4 (nx ny nz : nat) (l : list K) : option (grid (V3 K)) :=
  if length l =? nx * ny * nz * 3 then
    let cells := map (fun c => mkV3 (nth 0 c n0) (nth 1 c n0) (nth 2 c n0))
                     (chunk 3 (nx * ny * nz) l) in
    Some (chunk ny nx (chunk nz (nx * ny) cells))
  else None.

(** *** The energy terms *)

Inductive EnergyTerm :=
| Exchange (A : K)
| DMI (D : K)
| Zeeman (H : V3 K).

Definition effective_field (t : EnergyTerm) (M : grid (V3 K))
  : option (grid (V3 K)) :=
  match t with
  | Exchange A =>
      if allclose0 (flatV (get_M M)) then Some (zeros_like (get_M M))
      else let a2 := nmul two A in
           let u := mu0 in
           Some (gzip3 (fun s v => vmap (nmul (ndiv a2 (nmul u s))) v)
                   (get_Ms M) (laplace M))
  | DMI D =>
      if allclose0 (flatV (get_M M)) then Some (zeros_like (get_M M))
      else let d2 := nmul two D in
           let u := mu0 in
           let* c := curl M in
           Some (gzip3 (fun s v => vmap (nmul (nopp (ndiv d2 (nmul u s)))) v)
                   (get_Ms M) c)
  | Zeeman H => reshape4 Nx Ny Nz (tile H (Nx * Ny * Nz))
  end.

(** [EnergyTerm.energy_density], the shared formula, for an effective field
    [heff]: [-mu0 / 2 * np.sum(Ms * (m * heff), axis=3, keepdims=True)]. *)
Definition base_energy_density (heff : grid (V3 K)) (M : grid (V3 K)) : grid K :=
  let value1 := gzip3 (vzip nmul) (get_m M) heff in
  let value2 := gzip3 (fun s v => vmap (nmul s) v) (get_Ms M) value1 in
  let k := ndiv (nopp mu0) two in
  gmap3 (fun v => nmul k (sum3 v)) value2.

(** [Zeeman.energy_density], the override:
    [-mu0 * Ms * np.sum(m * heff, axis=3, keepdims=True)]. *)
Definition zeeman_energy_density (heff : grid (V3 K)) (M : grid (V3 K)) : grid K :=
  let value := gzip3 (vzip nmul) (get_m M) heff in
  let k := nopp mu0 in
  gzip3 (fun s x => nmul (nmul k s) x) (get_Ms M) (gmap3 sum3 value).

Definition energy_density (t : EnergyTerm) (M : grid (V3 K)) : option (grid K) :=
  let* heff := effective_field t M in
  match t with
  | Zeeman _ => Some (zeeman_energy_density heff M)
  | _ => Some (base_energy_density heff M)
  end.

(** [EnergyTerm.energy]: [np.sum(energy_density(m) * dV)]. *)
Definition energy (t : EnergyTerm) (M : grid (V3 K)) : option K :=
  let dV := nmul (nmul dx dy) dz in
  let* w := energy_density t M in
  Some (np_sum (flat3 (gmap3 (fun x => nmul x dV) w))).

End Energy_Term.

(** ** [src/Mean_Field.py] *)

Section Mean_Field.
Context {K : Type} {NK : Num K}.

(** numpy's [tanh], an external library function used only by the finite
    temperature branch of [update_M]. *)
Variable np_tanh : K -> K.

Definition one : K := nlit 1 0.

(** The module's hyperparameters. *)
Record consts := {
  beta : K;
  D : K;
  A : K;
  H : V3 K;
  maxiter : nat
}.

(** [beta = 9e99], [D = 1.58e-3], [A = 8.78e-12], [B = 0.2],
    [H = (0, 0, B / mu0)], [maxiter = 12000]. *)
Definition source_consts : consts := {|
  beta := nlit 9 99;
  D := nlit 158 (-5);
  A := nlit 878 (-14);
  H := mkV3 n0 n0 (ndiv (nlit 2 (-1)) mu0);
  maxiter := 12 * 1000
|}.

(** The literal the code compares [beta] with ([9e99] stands for infinity). *)
Definition beta_inf : K := nlit 9 99.

Definition lamda_default : K := nlit 5 (-3).
Definition tol_default : K := nlit 1 (-4).

(** [Min_Driver.Langevin]: [1 / tanh(x) - x ** (-1)]. *)
Definition Langevin (x : K) : K := nsub (ndiv one (np_tanh x)) (ndiv one x).

(** [Min_Driver.cal_effective_field]: the summed effective fields and the
    summed energies of the three terms. *)
Definition cal_effective_field (c : consts) (M : grid (V3 K))
  : option (grid (V3 K) * K) :=
  let exchange := Exchange (A c) in
  let zeeman := Zeeman (H c) in
  let dmi := DMI (D c) in
  let* h_ex := effective_field exchange M in
  let* h_z := effective_field zeeman M in
  let* h_dmi := effective_field dmi M in
  let H_eff := gzip3 (vzip nadd) (gzip3 (vzip nadd) h_ex h_z) h_dmi in
  let* E_ex := energy exchange M in
  let* E_z := energy zeeman M in
  let* E_dmi := energy dmi M in
  Some (H_eff, nadd (nadd E_ex E_z) E_dmi).

(** [Min_Driver.update_M], its [let]s named: [L_result], the target
    [M_new] and the damped blend [M_lamda]. *)
Definition L_result (c : consts) (H_norm : grid K) : grid K :=
  if neqb (beta c) beta_inf then gmap3 (fun _ => one) H_norm
  else let bm := nmul (beta c) mu0 in gmap3 (fun h => Langevin (nmul bm h)) H_norm.

(** [Ms_old * (L_result * (H_eff / H_norm))] *)
Definition M_new_of (c : consts) (M : grid (V3 K)) (H_eff : grid (V3 K)) : grid (V3 K) :=
  let Ms_old := get_Ms M in
  let H_norm := norm_axis3 H_eff in
  let dir := gzip3 (fun h n => vmap (fun x => ndiv x n) h) H_eff H_norm in
  gzip3 (fun ms v => vmap (nmul ms) v) Ms_old
    (gzip3 (fun l v => vmap (nmul l) v) (L_result c H_norm) dir).

(** [M_old + lamda * (M_new - M_old)] *)
Definition M_lamda_of (c : consts) (M : grid (V3 K)) (H_eff : grid (V3 K)) (lamda : K)
  : grid (V3 K) :=
  gzip3 (vzip nadd) (get_M M)
    (gmap3 (vmap (nmul lamda)) (gzip3 (vzip nsub) (M_new_of c M H_eff) (get_M M))).

Definition update_M (c : consts) (M : grid (V3 K)) (H_eff : grid (V3 K)) (lamda : K)
  : grid (V3 K) :=
  let M_old := get_M M in
  let H_norm := norm_axis3 H_eff in
  if allclose0 (flat3 H_norm) then M_old
  else
    let M_new := M_new_of c M H_eff in
    let M_lamda := M_lamda_of c M H_eff lamda in
    let M_new_norm := norm_axis3 M_new in
    let M_lamda_norm := norm_axis3 M_lamda in
    gzip3 (fun v nn => vmap (fun x => nmul x nn) v)
      (gzip3 (fun v ln => vmap (fun x => ndiv x ln) v) M_lamda M_lamda_norm)
      M_new_norm.

(** *** The relaxation loop over the object store

    [m] in [Mean_field_difference] is an [M] object; [set_M] rebinds its
    attribute, which no operation mutates in place.  The store maps object
    identities to the array each one holds. *)
Definition store := nat -> grid (V3 K).

Definition set_M (s : store) (o : nat) (a : grid (V3 K)) : store :=
  fun o' => if Nat.eqb o' o then a else s o'.

(** One pass of the loop body on object [o]: the new store, effective field
    and energy, and the outcome of the stopping test
    [np.allclose(np.max(abs(m_new - m_old)), 0, atol=tol)]. *)
Definition mf_step (c : consts) (tol : K) (o : nat) (s : store) (H_eff : grid (V3 K))
  : option (store * grid (V3 K) * K * bool) :=
  let m_old := get_m (s o) in
  let M_new := update_M c (s o) H_eff lamda_default in
  let s := set_M s o M_new in
  let m_new := get_m (s o) in
  let* HE := cal_effective_field c (s o) in
  let diff := gzip3 (vzip nsub) m_new m_old in
  let* max_value := np_max (flatV (gmap3 (vmap nabs) diff)) in
  Some (s, fst HE, snd HE, isclose rtol_default tol max_value n0).

(** The [while count < maxiter] loop, given [fuel] rounds of budget. *)
Fixpoint mf_loop (c : consts) (tol : K) (o : nat) (fuel count : nat)
    (s : store) (H_eff : grid (V3 K)) (E : K) : option (store * K * nat) :=
  match fuel with
  | O => Some (s, E, count)
  | S fuel' =>
      if count <? maxiter c then
        let* r := mf_step c tol o s H_eff in
        let '(s', H', E', converged) := r in
        if converged then Some (s', E', count)
        else mf_loop c tol o fuel' (S count) s' H' E'
      else Some (s, E, count)
  end.

(** [Min_Driver.Mean_field_difference(m, tol)]: returns the store (holding
    the mutated [m]), the final energy and the iteration count. *)
Definition Mean_field_difference (c : consts) (tol : K) (s : store) (o : nat)
  : option (store * K * nat) :=
  let* HE := cal_effective_field c (s o) in
  mf_loop c tol o (maxiter c) 0 s (fst HE) (snd HE).

(** The state after [k] passes of the loop body, whatever their tests. *)
Fixpoint mf_states (c : consts) (tol : K) (o : nat) (k : nat)
    (s : store) (H_eff : grid (V3 K)) (E : K) : option (store * grid (V3 K) * K) :=
  match k with
  | O => Some (s, H_eff, E)
  | S k' =>
      let* st := mf_states c tol o k' s H_eff E in
      let '(s1, H1, _) := st in
      let* r := mf_step c tol o s1 H1 in
      let '(s2, H2, E2, _) := r in
      Some (s2, H2, E2)
  end.

(** The outcome of the stopping test at pass [k] (counted from 0) of the
    loop body started from [(s, H_eff, E)]. *)
Definition mf_test (c : consts) (tol : K) (o : nat) (k : nat)
    (s : store) (H_eff : grid (V3 K)) (E : K) : option bool :=
  let* st := mf_states c tol o k s H_eff E in
  let '(s1, H1, _) := st in
  let* r := mf_step c tol o s1 H1 in
  let '(_, _, _, converged) := r in
  Some converged.

End Mean_Field.

(** * The curl as the spec describes it *)

Section Spec_curl.
Context {K : Type} {NK : Num K}.

(** The unit field [m] padded by one cell of zero vectors (Dirichlet): the
    cell (i, j, k) of the (Nx, Ny, Nz) grid, and the zero vector outside. *)
Definition cell0 (m : grid (V3 K)) (i j k : Z) : V3 K :=
  if (0 <=? i)%Z && (i <? Z.of_nat Nx)%Z && (0 <=? j)%Z && (j <? Z.of_nat Ny)%Z
     && (0 <=? k)%Z && (k <? Z.of_nat Nz)%Z
  then at3 m (Z.to_nat i) (Z.to_nat j) (Z.to_nat k) v0 else v0.

(** The standard curl by central differences along the two axes orthogonal
    to each component:
    (dm_z/dy - dm_y/dz, dm_x/dz - dm_z/dx, dm_y/dx - dm_x/dy). *)
Definition curl_spec (m : grid (V3 K)) (i j k : nat) : V3 K :=
  let c (di dj dk : Z) := cell0 m (Z.of_nat i + di) (Z.of_nat j + dj) (Z.of_nat k + dk) in
  let d (f : V3 K -> K) (p q : V3 K) (h : K) := ndiv (nsub (f p) (f q)) (nmul two h) in
  mkV3
    (nsub (d vz (c 0 1 0)%Z (c 0 (-1) 0)%Z dy) (d vy (c 0 0 1)%Z (c 0 0 (-1))%Z dz))
    (nsub (d vx (c 0 0 1)%Z (c 0 0 (-1))%Z dz) (d vz (c 1 0 0)%Z (c (-1) 0 0)%Z dx))
    (nsub (d vy (c 1 0 0)%Z (c (-1) 0 0)%Z dx) (d vx (c 0 1 0)%Z (c 0 (-1) 0)%Z dy)).

End Spec_curl.

(** * Shapes *)

Section Shapes.
Context {K : Type} {NK : Num K}.

Lemma length_zipw {A B C} (f : A -> B -> C) a b :
  length (zipw f a b) = Nat.min (length a) (length b).
Proof. revert b; induction a as [|x a IH]; destruct b; simpl; auto. Qed.

Lemma Forall_zipw {A B C} (f : A -> B -> C) (P : A -> Prop) (Q : B -> Prop)
    (R : C -> Prop) a b :
  (forall x y, P x -> Q y -> R (f x y)) ->
  Forall P a -> Forall Q b -> Forall R (zipw f a b).
Proof.
  intros Hf Ha; revert b; induction Ha as [|x a Hx Ha IH]; intros b Hb;
    destruct Hb; simpl; constructor; auto.
Qed.

Lemma Forall_firstn {A} (P : A -> Prop) n l : Forall P l -> Forall P (firstn n l).
Proof.
  intros H; revert n; induction H; intros [|n]; simpl; constructor; auto.
Qed.

Lemma Forall_skipn {A} (P : A -> Prop) n l : Forall P l -> Forall P (skipn n l).
Proof.
  intros H; revert n; induction H; intros [|n]; simpl; try constructor; auto.
Qed.

Lemma wf2_zipw {A B C} (f : A -> B -> C) p q ny nz :
  wf2 p ny nz -> wf2 q ny nz -> wf2 (zipw (zipw f) p q) ny nz.
Proof.
  intros [Hp Fp] [Hq Fq]; split.
  - rewrite length_zipw, Hp, Hq; apply Nat.min_id.
  - eapply Forall_zipw; [|exact Fp|exact Fq].
    intros x y Hx Hy; simpl; rewrite length_zipw, Hx, Hy; apply Nat.min_id.
Qed.

Lemma wf3_gzip3 {A B C} (f : A -> B -> C) a b nx ny nz :
  wf3 a nx ny nz -> wf3 b nx ny nz -> wf3 (gzip3 f a b) nx ny nz.
Proof.
  intros [Ha Fa] [Hb Fb]; split.
  - unfold gzip3; rewrite length_zipw, Ha, Hb; apply Nat.min_id.
  - eapply Forall_zipw; [|exact Fa|exact Fb].
    intros x y Hx Hy; apply wf2_zipw; auto.
Qed.

Lemma wf3_gmap3 {A B} (f : A -> B) g nx ny nz :
  wf3 g nx ny nz -> wf3 (gmap3 f g) nx ny nz.
Proof.
  intros [Hg Fg]; split.
  - unfold gmap3; rewrite length_map; auto.
  - apply Forall_map; eapply Forall_impl; [|exact Fg].
    intros p [Hp Fp]; split.
    + rewrite length_map; auto.
    + apply Forall_map; eapply Forall_impl; [|exact Fp].
      intros r Hr; simpl; rewrite length_map; auto.
Qed.

Lemma wf3_const3 {A} nx ny nz (x : A) : wf3 (const3 nx ny nz x) nx ny nz.
Proof.
  unfold const3; split; [apply repeat_length|].
  apply Forall_forall; intros p Hp; apply repeat_spec in Hp; subst p.
  split; [apply repeat_length|].
  apply Forall_forall; intros r Hr; apply repeat_spec in Hr; subst r.
  apply repeat_length.
Qed.

Lemma wf3_get_Ms (M : grid (V3 K)) nx ny nz :
  wf3 M nx ny nz -> wf3 (get_Ms M) nx ny nz.
Proof. apply wf3_gmap3. Qed.

Lemma wf3_zeros_like (M : grid (V3 K)) nx ny nz :
  wf3 M nx ny nz -> wf3 (zeros_like M) nx ny nz.
Proof. apply wf3_gmap3. Qed.

Lemma wf3_get_m (M : grid (V3 K)) nx ny nz :
  wf3 M nx ny nz -> wf3 (get_m M) nx ny nz.
Proof.
  intros H; unfold get_m, get_M; destruct (allclose0 _).
  - now apply wf3_zeros_like.
  - apply wf3_gzip3; auto; now apply wf3_get_Ms.
Qed.

(** *** Slices and padding *)

Lemma slice1_length {A} s (l : list A) n :
  length l = n + 2 -> length (slice1 s l) = n.
Proof.
  intros H; destruct s; unfold slice1;
    rewrite ?length_skipn, ?length_firstn; lia.
Qed.

Lemma slice1_Forall {A} (P : A -> Prop) s l : Forall P l -> Forall P (slice1 s l).
Proof.
  intros H; destruct s; unfold slice1;
    auto using Forall_firstn, Forall_skipn.
Qed.

Lemma wf3_slice3 {A} s0 s1 s2 (g : grid A) nx ny nz :
  wf3 g (nx + 2) (ny + 2) (nz + 2) -> wf3 (slice3 s0 s1 s2 g) nx ny nz.
Proof.
  intros [Hg Fg]; split.
  - apply slice1_length; rewrite length_map; auto.
  - apply slice1_Forall, Forall_map; eapply Forall_impl; [|exact Fg].
    intros p [Hp Fp]; split.
    + apply slice1_length; rewrite length_map; auto.
    + apply slice1_Forall, Forall_map; eapply Forall_impl; [|exact Fp].
      intros r Hr; now apply slice1_length.
Qed.

Lemma pad_edge1_length {A} (l : list A) n :
  length l = S n -> length (pad_edge1 l) = S n + 2.
Proof.
  destruct l as [|x l]; simpl; intros H; [discriminate|].
  rewrite length_app; simpl; lia.
Qed.

Lemma last_In {A} (x : A) l d : In (last (x :: l) d) (x :: l).
Proof.
  assert (Hl : x :: l <> []) by discriminate.
  pose proof (@app_removelast_last A (x :: l) d Hl) as E.
  set (t := last (x :: l) d) in *.
  rewrite E; apply in_or_app; right; left; reflexivity.
Qed.

Lemma pad_edge1_Forall {A} (P : A -> Prop) (l : list A) :
  Forall P l -> Forall P (pad_edge1 l).
Proof.
  intros H; destruct l as [|x l]; [constructor|].
  unfold pad_edge1; constructor; [now inversion H|].
  apply Forall_app; split; [exact H|].
  constructor; [|constructor].
  rewrite Forall_forall in H; apply H, last_In.
Qed.

Lemma wf3_pad_edge3 {A} (g : grid A) nx ny nz :
  wf3 g (S nx) (S ny) (S nz) -> wf3 (pad_edge3 g) (S nx + 2) (S ny + 2) (S nz + 2).
Proof.
  intros [Hg Fg]; split.
  - apply pad_edge1_length; rewrite length_map; auto.
  - apply pad_edge1_Forall, Forall_map; eapply Forall_impl; [|exact Fg].
    intros p [Hp Fp]; split.
    + apply pad_edge1_length; rewrite length_map; auto.
    + apply pad_edge1_Forall, Forall_map; eapply Forall_impl; [|exact Fp].
      intros r Hr; now apply pad_edge1_length.
Qed.

Lemma shape3_wf {A} (g : grid A) nx ny nz :
  wf3 g (S nx) (S ny) nz -> shape3 g = (S nx, S ny, nz).
Proof.
  intros [Hg Fg]; unfold shape3.
  destruct g as [|p g]; [discriminate|].
  inversion Fg as [|? ? [Hp Fp] _]; subst.
  destruct p as [|r p]; [discriminate|].
  inversion Fp; subst; simpl in *; rewrite Hg, Hp; reflexivity.
Qed.

Lemma wf2_repeat {A} (z : A) b c : wf2 (repeat (repeat z c) b) b c.
Proof.
  split; [apply repeat_length|].
  apply Forall_forall; intros r Hr; apply repeat_spec in Hr; subst r.
  apply repeat_length.
Qed.

Lemma wf3_pad_const3 {A} (z : A) (g : grid A) nx ny nz :
  wf3 g (S nx) (S ny) nz -> wf3 (pad_const3 z g) (S nx + 2) (S ny + 2) (nz + 2).
Proof.
  intros Hw; unfold pad_const3; rewrite (shape3_wf g nx ny nz Hw).
  destruct Hw as [Hg Fg]; unfold pad_const1; split.
  - simpl; rewrite length_app, length_map; simpl; lia.
  - constructor; [apply wf2_repeat|].
    apply Forall_app; split; [|constructor; [apply wf2_repeat|constructor]].
    apply Forall_map; eapply Forall_impl; [|exact Fg].
    intros p [Hp Fp]; split.
    + simpl; rewrite length_app, length_map; simpl; lia.
    + constructor; [apply repeat_length|].
      apply Forall_app; split; [|constructor; [apply repeat_length|constructor]].
      apply Forall_map; eapply Forall_impl; [|exact Fp].
      intros r Hr; simpl in *; rewrite length_app; simpl; lia.
Qed.

(** *** In-place broadcasting addition *)

Lemma mapM2_ok {A B C} (f : A -> B -> option C) (P : A -> Prop) (Q : B -> Prop)
    (R : C -> Prop) a b :
  (forall x y, P x -> Q y -> exists r, f x y = Some r /\ R r) ->
  length a = length b -> Forall P a -> Forall Q b ->
  exists rs, mapM2 f a b = Some rs /\ length rs = length a /\ Forall R rs.
Proof.
  intros Hf; revert b; induction a as [|x a IH]; intros [|y b] Hl Ha Hb;
    try discriminate; simpl.
  - exists []; auto.
  - inversion Ha; inversion Hb; subst.
    destruct (Hf x y) as [r [E Hr]]; auto; rewrite E.
    destruct (IH b) as [rs [E' [Hl' Hrs]]]; auto; rewrite E'.
    exists (r :: rs); simpl; auto.
Qed.

Lemma mapM_ok {A C} (f : A -> option C) (P : A -> Prop) (R : C -> Prop) a :
  (forall x, P x -> exists r, f x = Some r /\ R r) -> Forall P a ->
  exists rs, mapM f a = Some rs /\ length rs = length a /\ Forall R rs.
Proof.
  intros Hf Ha; induction Ha as [|x a Hx Ha IH]; simpl.
  - exists []; auto.
  - destruct (Hf x) as [r [E Hr]]; auto; rewrite E.
    destruct IH as [rs [E' [Hl' Hrs]]]; rewrite E'.
    exists (r :: rs); simpl; auto.
Qed.

Lemma iadd_axis_spec {A B} (f : A -> B -> option A) (P : A -> Prop) (Q : B -> Prop)
    (ok : Prop) out rhs n m :
  (forall x y, P x -> Q y -> ok -> exists r, f x y = Some r /\ P r) ->
  (forall x y, P x -> Q y -> ~ ok -> f x y = None) ->
  length out = S n -> length rhs = S m -> Forall P out -> Forall Q rhs ->
  ((S m = S n \/ S m = 1) /\ ok ->
     exists r, iadd_axis f out rhs = Some r /\ length r = S n /\ Forall P r) /\
  (~ ((S m = S n \/ S m = 1) /\ ok) -> iadd_axis f out rhs = None).
Proof.
  intros Hok Hno Ho Hr Fo Fr; unfold iadd_axis; split.
  - intros [[E|E] Hk].
    + rewrite Hr, Ho, E, Nat.eqb_refl, <- Ho.
      apply mapM2_ok with (P := P) (Q := Q); auto; lia.
    + destruct (Nat.eqb_spec (length rhs) (length out)) as [E'|E'].
      * rewrite <- Ho; apply mapM2_ok with (P := P) (Q := Q); auto.
      * destruct rhs as [|y [|y' rhs]]; try (simpl in Hr; lia).
        inversion Fr; subst.
        rewrite <- Ho; apply mapM_ok with (P := P); auto.
  - intros Hn.
    destruct (Nat.eq_dec (S m) (S n)) as [E|E].
    + assert (Hk : ~ ok) by tauto.
      rewrite Hr, Ho, E, Nat.eqb_refl.
      destruct out as [|x out]; [discriminate|].
      destruct rhs as [|y rhs]; [discriminate|].
      inversion Fo; inversion Fr; subst; simpl.
      now rewrite (Hno x y).
    + destruct (Nat.eq_dec (S m) 1) as [E1|E1].
      * assert (Hk : ~ ok) by tauto.
        rewrite Hr, Ho; destruct (Nat.eqb_spec (S m) (S n)) as [E2|E2]; [lia|].
        destruct rhs as [|y [|y' rhs]]; try (simpl in Hr; lia).
        destruct out as [|x out]; [discriminate|].
        inversion Fo; inversion Fr; subst; simpl.
        now rewrite (Hno x y).
      * rewrite Hr, Ho; destruct (Nat.eqb_spec (S m) (S n)) as [E2|E2]; [lia|].
        destruct rhs as [|y [|y' rhs]]; auto; simpl in Hr; lia.
Qed.

(** The condition under which [out += rhs] broadcasts: along each axis [rhs]
    has the length of [out] or length 1. *)
Definition bcast_ok (a b c a' b' c' : nat) : Prop :=
  (a' = a \/ a' = 1) /\ (b' = b \/ b' = 1) /\ (c' = c \/ c' = 1).

Lemma iadd3_spec (out rhs : grid K) a b c a' b' c' :
  wf3 out (S a) (S b) (S c) -> wf3 rhs (S a') (S b') (S c') ->
  (bcast_ok (S a) (S b) (S c) (S a') (S b') (S c') ->
     exists r, iadd3 out rhs = Some r /\ wf3 r (S a) (S b) (S c)) /\
  (~ bcast_ok (S a) (S b) (S c) (S a') (S b') (S c') -> iadd3 out rhs = None).
Proof.
  intros [Ho Fo] [Hr Fr]; unfold iadd3, bcast_ok.
  (* rows *)
  assert (L2 : forall x y : list K, length x = S c -> length y = S c' ->
            ((S c' = S c \/ S c' = 1) /\ True ->
              exists r, iadd_axis (fun o r => Some (nadd o r)) x y = Some r /\
                        length r = S c /\ Forall (fun _ => True) r) /\
            (~ ((S c' = S c \/ S c' = 1) /\ True) ->
              iadd_axis (fun o r => Some (nadd o r)) x y = None)).
  { intros x y Hx Hy.
    apply (iadd_axis_spec _ (fun _ => True) (fun _ => True)); auto.
    - intros u v _ _ _; exists (nadd u v); auto.
    - intros u v _ _ Hn; exfalso; auto.
    - apply Forall_forall; auto.
    - apply Forall_forall; auto. }
  (* planes *)
  assert (L1 : forall x y, wf2 x (S b) (S c) -> wf2 y (S b') (S c') ->
            ((S b' = S b \/ S b' = 1) /\ (S c' = S c \/ S c' = 1) ->
              exists r, iadd_axis (iadd_axis (fun o r => Some (nadd o r))) x y = Some r /\
                        wf2 r (S b) (S c)) /\
            (~ ((S b' = S b \/ S b' = 1) /\ (S c' = S c \/ S c' = 1)) ->
              iadd_axis (iadd_axis (fun o r => Some (nadd o r))) x y = None)).
  { intros x y [Hx Fx] [Hy Fy].
    destruct (iadd_axis_spec (iadd_axis (fun o r => Some (nadd o r)))
                (fun r => length r = S c) (fun r => length r = S c')
                (S c' = S c \/ S c' = 1) x y b b') as [P1 P2]; auto.
    - intros u v Hu Hv Hk.
      destruct (proj1 (L2 u v Hu Hv)) as [r [E [Hl _]]]; auto; eauto.
    - intros u v Hu Hv Hk; apply (proj2 (L2 u v Hu Hv)); tauto. }
  destruct (iadd_axis_spec (iadd_axis (iadd_axis (fun o r => Some (nadd o r))))
              (fun p => wf2 p (S b) (S c)) (fun p => wf2 p (S b') (S c'))
              ((S b' = S b \/ S b' = 1) /\ (S c' = S c \/ S c' = 1)) out rhs a a')
    as [P1 P2]; auto.
  - intros u v Hu Hv Hk; destruct (proj1 (L1 u v Hu Hv) Hk) as [r [E Hw]]; eauto.
  - intros u v Hu Hv Hk; exact (proj2 (L1 u v Hu Hv) Hk).
Qed.

Lemma iadd3_some (out rhs : grid K) a b c a' b' c' :
  wf3 out (S a) (S b) (S c) -> wf3 rhs (S a') (S b') (S c') ->
  bcast_ok (S a) (S b) (S c) (S a') (S b') (S c') ->
  exists r, iadd3 out rhs = Some r /\ wf3 r (S a) (S b) (S c).
Proof. intros Ho Hr; exact (proj1 (iadd3_spec out rhs a b c a' b' c' Ho Hr)). Qed.

Lemma iadd3_none (out rhs : grid K) a b c a' b' c' :
  wf3 out (S a) (S b) (S c) -> wf3 rhs (S a') (S b') (S c') ->
  ~ bcast_ok (S a) (S b) (S c) (S a') (S b') (S c') -> iadd3 out rhs = None.
Proof. intros Ho Hr; exact (proj2 (iadd3_spec out rhs a b c a' b' c' Ho Hr)). Qed.

(** *** Shapes of [curl] and [laplace] *)

Lemma wf3_cdiff (g : grid (V3 K)) nx ny nz s0 s1 s2 t0 t1 t2 c h :
  wf3 g (S nx) (S ny) (S nz) ->
  wf3 (cdiff (pad_const3 v0 g) (slice3 s0 s1 s2) (slice3 t0 t1 t2) c h)
    (S nx) (S ny) (S nz).
Proof.
  intros Hw; pose proof (wf3_pad_const3 v0 g nx ny (S nz) Hw) as Hp.
  unfold cdiff; apply wf3_gmap3, wf3_gzip3; apply wf3_gmap3, wf3_slice3; exact Hp.
Qed.

Lemma bcast_ok_dec a b c a' b' c' :
  bcast_ok a b c a' b' c' \/ ~ bcast_ok a b c a' b' c'.
Proof. unfold bcast_ok; lia. Qed.

Ltac iadd_some :=
  match goal with
  | |- context [iadd3 ?o ?r] =>
      let x := fresh "d" in let E := fresh "E" in let W := fresh "W" in
      edestruct (iadd3_some o r) as [x [E W]];
      [ eauto using wf3_gzip3 | eauto using wf3_gzip3
      | unfold bcast_ok in *; lia | rewrite E ]
  end.

Lemma curl_shape (M : grid (V3 K)) nx ny nz :
  wf3 M (S nx) (S ny) (S nz) ->
  ((S nx, S ny, S nz) = (Nx, Ny, Nz) -> exists c, curl M = Some c /\ wf3 c Nx Ny Nz) /\
  ((S nx, S ny, S nz) <> (Nx, Ny, Nz) -> curl M = None).
Proof.
  intros Hw.
  pose proof (wf3_get_m M _ _ _ Hw) as Hm.
  assert (Hz : wf3 (zeros3 Nx Ny Nz) (S 59) (S 59) (S 11)) by apply wf3_const3.
  assert (Hc : forall s0 s1 s2 t0 t1 t2 c h,
             wf3 (cdiff (pad_const3 v0 (get_m M)) (slice3 s0 s1 s2) (slice3 t0 t1 t2) c h)
               (S nx) (S ny) (S nz)) by (intros; now apply wf3_cdiff).
  assert (Hcr : forall f : V3 K -> K,
             wf3 (gmap3 f (zeros_like (get_m M))) (S nx) (S ny) (S nz))
    by (intros; now apply wf3_gmap3, wf3_zeros_like).
  unfold curl; cbv zeta; split.
  - intros E.
    assert (nx = 59 /\ ny = 59 /\ nz = 11) as [-> [-> ->]]
      by (unfold Nx, Ny, Nz in E; injection E; lia).
    do 9 iadd_some.
    eexists; split; [reflexivity|].
    unfold Nx, Ny, Nz; eauto using wf3_gzip3.
  - intros Hne.
    assert (Hne' : ~ (S nx = 60 /\ S ny = 60 /\ S nz = 12)).
    { intros [E1 [E2 E3]]; apply Hne; rewrite E1, E2, E3; reflexivity. }
    destruct (bcast_ok_dec (S 59) (S 59) (S 11) (S nx) (S ny) (S nz)) as [Hb|Hb].
    + do 6 iadd_some.
      rewrite (iadd3_none _ _ nx ny nz 59 59 11); auto using wf3_gzip3.
      unfold bcast_ok in *; lia.
    + rewrite (iadd3_none _ _ 59 59 11 nx ny nz); auto.
Qed.

Lemma wf3_second_diff (g : grid (V3 K)) nx ny nz s0 s1 s2 t0 t1 t2 h2 :
  wf3 g (S nx) (S ny) (S nz) ->
  wf3 (second_diff (pad_edge3 g) (slice3 s0 s1 s2) (slice3 t0 t1 t2) h2)
    (S nx) (S ny) (S nz).
Proof.
  intros Hw; pose proof (wf3_pad_edge3 g nx ny nz Hw) as Hp.
  unfold second_diff; apply wf3_gmap3, wf3_gzip3;
    [apply wf3_gzip3|apply wf3_gmap3]; apply wf3_slice3; exact Hp.
Qed.

Lemma wf3_laplace (M : grid (V3 K)) nx ny nz :
  wf3 M (S nx) (S ny) (S nz) -> wf3 (laplace M) (S nx) (S ny) (S nz).
Proof.
  intros Hw; pose proof (wf3_get_m M _ _ _ Hw) as Hm.
  unfold laplace; cbv zeta.
  repeat apply wf3_gzip3; auto using wf3_zeros_like, wf3_second_diff.
Qed.

(** *** [np.tile(H, n).reshape(...)] is [H] in every cell *)

Lemma length_concat_repeat {A} (l : list A) n :
  length (concat (repeat l n)) = n * length l.
Proof. induction n; simpl; rewrite ?length_app; lia. Qed.

Lemma chunk_repeat {A} (x : A) k n :
  chunk k n (repeat x (n * k)) = repeat (repeat x k) n.
Proof.
  induction n as [|n IH]; simpl; auto.
  rewrite repeat_app, firstn_app, skipn_app, repeat_length, Nat.sub_diag.
  rewrite firstn_all2 by (rewrite repeat_length; lia).
  rewrite skipn_all2 by (rewrite repeat_length; lia).
  simpl; rewrite app_nil_r, IH; reflexivity.
Qed.

Lemma chunk3_tile (H : V3 K) n :
  chunk 3 n (tile H n) = repeat (vcomps H) n.
Proof.
  induction n as [|n IH]; [reflexivity|].
  change (tile H (S n)) with ([vx H; vy H; vz H] ++ tile H n).
  cbn [chunk app firstn skipn]; rewrite IH; reflexivity.
Qed.

Lemma reshape4_tile (H : V3 K) nx ny nz :
  reshape4 nx ny nz (tile H (nx * ny * nz)) = Some (const3 nx ny nz H).
Proof.
  assert (Hl : length (tile H (nx * ny * nz)) = nx * ny * nz * 3)
    by (unfold tile; rewrite length_concat_repeat; reflexivity).
  unfold reshape4; rewrite Hl, Nat.eqb_refl.
  rewrite chunk3_tile, map_repeat.
  replace (mkV3 (nth 0 (vcomps H) n0) (nth 1 (vcomps H) n0) (nth 2 (vcomps H) n0)) with H
    by (destruct H; reflexivity).
  rewrite chunk_repeat, chunk_repeat; reflexivity.
Qed.

(** *** Shapes of the effective fields, energy densities and [update_M] *)

Lemma effective_field_Zeeman (H : V3 K) (M : grid (V3 K)) :
  effective_field (Zeeman H) M = Some (const3 Nx Ny Nz H).
Proof. apply reshape4_tile. Qed.

Lemma wf3_effective_field t (M : grid (V3 K)) :
  wf3 M Nx Ny Nz -> exists h, effective_field t M = Some h /\ wf3 h Nx Ny Nz.
Proof.
  intros Hw; destruct t as [a|d|h]; simpl.
  - destruct (allclose0 _); eexists; split; try reflexivity.
    + now apply wf3_zeros_like.
    + apply wf3_gzip3; [now apply wf3_get_Ms|].
      exact (wf3_laplace M 59 59 11 Hw).
  - destruct (allclose0 _); [eexists; split; [reflexivity|now apply wf3_zeros_like]|].
    destruct (proj1 (curl_shape M 59 59 11 Hw) eq_refl) as [c [E Hc]].
    rewrite E; eexists; split; [reflexivity|].
    apply wf3_gzip3; auto using wf3_get_Ms.
  - rewrite reshape4_tile; eexists; split; [reflexivity|apply wf3_const3].
Qed.

Lemma wf3_base_energy_density heff (M : grid (V3 K)) nx ny nz :
  wf3 heff nx ny nz -> wf3 M nx ny nz -> wf3 (base_energy_density heff M) nx ny nz.
Proof.
  intros Hh Hw; unfold base_energy_density; cbv zeta.
  auto using wf3_gmap3, wf3_gzip3, wf3_get_Ms, wf3_get_m.
Qed.

Lemma wf3_zeeman_energy_density heff (M : grid (V3 K)) nx ny nz :
  wf3 heff nx ny nz -> wf3 M nx ny nz -> wf3 (zeeman_energy_density heff M) nx ny nz.
Proof.
  intros Hh Hw; unfold zeeman_energy_density; cbv zeta.
  auto using wf3_gmap3, wf3_gzip3, wf3_get_Ms, wf3_get_m.
Qed.

Lemma wf3_energy_density t (M : grid (V3 K)) :
  wf3 M Nx Ny Nz -> exists w, energy_density t M = Some w /\ wf3 w Nx Ny Nz.
Proof.
  intros Hw; destruct (wf3_effective_field t M Hw) as [h [E Hh]].
  unfold energy_density; rewrite E.
  destruct t; eexists; split; try reflexivity;
    auto using wf3_base_energy_density, wf3_zeeman_energy_density.
Qed.

Lemma wf3_L_result (np_tanh : K -> K) c (Hn : grid K) nx ny nz :
  wf3 Hn nx ny nz -> wf3 (L_result np_tanh c Hn) nx ny nz.
Proof. intros Hw; unfold L_result; destruct (neqb _ _); auto using wf3_gmap3. Qed.

Lemma wf3_M_new_of (np_tanh : K -> K) c (M H_eff : grid (V3 K)) nx ny nz :
  wf3 M nx ny nz -> wf3 H_eff nx ny nz -> wf3 (M_new_of np_tanh c M H_eff) nx ny nz.
Proof.
  intros Hw Hh; unfold M_new_of; cbv zeta.
  auto using wf3_gmap3, wf3_gzip3, wf3_get_Ms, wf3_L_result.
Qed.

Lemma wf3_M_lamda_of (np_tanh : K -> K) c (M H_eff : grid (V3 K)) lamda nx ny nz :
  wf3 M nx ny nz -> wf3 H_eff nx ny nz ->
  wf3 (M_lamda_of np_tanh c M H_eff lamda) nx ny nz.
Proof.
  intros Hw Hh; unfold M_lamda_of, get_M.
  auto using wf3_gmap3, wf3_gzip3, wf3_M_new_of.
Qed.

Lemma wf3_update_M (np_tanh : K -> K) c (M H_eff : grid (V3 K)) lamda nx ny nz :
  wf3 M nx ny nz -> wf3 H_eff nx ny nz ->
  wf3 (update_M np_tanh c M H_eff lamda) nx ny nz.
Proof.
  intros Hw Hh; unfold update_M, get_M, norm_axis3; cbv zeta; destruct (allclose0 _); auto.
  auto using wf3_gmap3, wf3_gzip3, wf3_M_new_of, wf3_M_lamda_of.
Qed.

End Shapes.

Create HintDb wf.
#[global] Hint Resolve wf3_gzip3 wf3_gmap3 wf3_get_m wf3_get_Ms wf3_zeros_like
  wf3_M_new_of wf3_M_lamda_of wf3_L_result : wf.

(** * Uniform arrays *)

Section Uniform.

Lemma firstn_repeat_min {A} (x : A) k n : firstn k (repeat x n) = repeat x (Nat.min k n).
Proof. revert n; induction k as [|k IH]; intros [|n]; simpl; f_equal; auto. Qed.

Lemma skipn_repeat_sub {A} (x : A) k n : skipn k (repeat x n) = repeat x (n - k).
Proof. revert n; induction k as [|k IH]; intros [|n]; simpl; auto; f_equal; lia. Qed.

Lemma last_repeat {A} (x : A) n : last (repeat x n) x = x.
Proof. induction n as [|[|n] IH]; simpl in *; auto. Qed.

Lemma zipw_repeat {A B C} (f : A -> B -> C) x y n :
  zipw f (repeat x n) (repeat y n) = repeat (f x y) n.
Proof. induction n; simpl; f_equal; auto. Qed.

Lemma slice1_repeat {A} s (x : A) n : slice1 s (repeat x (n + 2)) = repeat x n.
Proof.
  destruct s; unfold slice1;
    rewrite ?repeat_length, ?firstn_repeat_min, ?skipn_repeat_sub; f_equal; lia.
Qed.

Lemma pad_edge1_repeat {A} (x : A) n : pad_edge1 (repeat x (S n)) = repeat x (S n + 2).
Proof.
  change (repeat x (S n)) with (x :: repeat x n); unfold pad_edge1.
  change (x :: repeat x n) with (repeat x (S n)); rewrite last_repeat.
  replace (S n + 2) with (S (S n) + 1) by lia; rewrite repeat_app; reflexivity.
Qed.

Lemma gmap3_const3 {A B} (f : A -> B) x a b c :
  gmap3 f (const3 a b c x) = const3 a b c (f x).
Proof. unfold gmap3, const3; rewrite !map_repeat; reflexivity. Qed.

Lemma gzip3_const3 {A B C} (f : A -> B -> C) x y a b c :
  gzip3 f (const3 a b c x) (const3 a b c y) = const3 a b c (f x y).
Proof. unfold gzip3, const3; rewrite !zipw_repeat; reflexivity. Qed.

Lemma slice3_const3 {A} s0 s1 s2 (x : A) a b c :
  slice3 s0 s1 s2 (const3 (a + 2) (b + 2) (c + 2) x) = const3 a b c x.
Proof.
  unfold slice3, const3; rewrite map_repeat; cbv beta.
  rewrite map_repeat, !slice1_repeat; reflexivity.
Qed.

Lemma pad_edge3_const3 {A} (x : A) a b c :
  pad_edge3 (const3 (S a) (S b) (S c) x) = const3 (S a + 2) (S b + 2) (S c + 2) x.
Proof.
  unfold pad_edge3, const3; rewrite map_repeat; cbv beta.
  rewrite map_repeat, !pad_edge1_repeat; reflexivity.
Qed.

Lemma get_m_const3 {K} {NK : Num K} (v : V3 K) a b c :
  exists w, get_m (const3 a b c v) = const3 a b c w.
Proof.
  unfold get_m, get_M, zeros_like, get_Ms, norm_axis3; destruct (allclose0 _).
  - rewrite gmap3_const3; eauto.
  - rewrite gmap3_const3, gzip3_const3; eauto.
Qed.

End Uniform.

(** * Cells of an array *)

Section Cells.

Lemma nth_zipw {A B C} (f : A -> B -> C) a b i da db dc :
  i < length a -> i < length b -> nth i (zipw f a b) dc = f (nth i a da) (nth i b db).
Proof.
  revert b i; induction a as [|x a IH]; intros [|y b] [|i]; simpl; intros; try lia; auto.
  apply IH; lia.
Qed.

Lemma nth_map_in {A B} (f : A -> B) l i da db :
  i < length l -> nth i (map f l) db = f (nth i l da).
Proof.
  revert i; induction l as [|x l IH]; intros [|i]; simpl; intros; try lia; auto.
  apply IH; lia.
Qed.

Lemma wf3_row {A} (g : grid A) nx ny nz i j :
  wf3 g nx ny nz -> i < nx -> j < ny ->
  length (nth i g []) = ny /\ length (nth j (nth i g []) []) = nz.
Proof.
  intros [Hg Fg] Hi Hj.
  assert (P : wf2 (nth i g []) ny nz)
    by (rewrite Forall_forall in Fg; apply Fg, nth_In; lia).
  destruct P as [Hp Fp]; split; auto.
  rewrite Forall_forall in Fp; apply Fp, nth_In; lia.
Qed.

Lemma at3_gzip3 {A B C} (f : A -> B -> C) a b nx ny nz i j k da db dc :
  wf3 a nx ny nz -> wf3 b nx ny nz -> i < nx -> j < ny -> k < nz ->
  at3 (gzip3 f a b) i j k dc = f (at3 a i j k da) (at3 b i j k db).
Proof.
  intros Ha Hb Hi Hj Hk; unfold at3, gzip3.
  destruct (wf3_row a nx ny nz i j Ha Hi Hj) as [La Ra].
  destruct (wf3_row b nx ny nz i j Hb Hi Hj) as [Lb Rb].
  rewrite (nth_zipw _ _ _ _ [] []) by (destruct Ha, Hb; lia).
  rewrite (nth_zipw _ _ _ _ [] []) by lia.
  apply nth_zipw; lia.
Qed.

Lemma at3_gmap3 {A B} (f : A -> B) g nx ny nz i j k da db :
  wf3 g nx ny nz -> i < nx -> j < ny -> k < nz ->
  at3 (gmap3 f g) i j k db = f (at3 g i j k da).
Proof.
  intros Hg Hi Hj Hk; unfold at3, gmap3.
  destruct (wf3_row g nx ny nz i j Hg Hi Hj) as [L R].
  rewrite (nth_map_in _ _ _ []) by (destruct Hg; lia).
  rewrite (nth_map_in _ _ _ []) by lia.
  apply nth_map_in; lia.
Qed.

Lemma mapM2_some {A B C} (f : A -> B -> option C) (g : A -> B -> C)
    (P : A -> Prop) (Q : B -> Prop) a b :
  (forall x y, P x -> Q y -> f x y = Some (g x y)) ->
  length a = length b -> Forall P a -> Forall Q b ->
  mapM2 f a b = Some (zipw g a b).
Proof.
  intros Hf; revert b; induction a as [|x a IH]; intros [|y b] Hl Ha Hb;
    try discriminate; simpl; auto.
  inversion Ha; inversion Hb; subst.
  rewrite Hf by auto; rewrite IH by auto; reflexivity.
Qed.

Lemma iadd_axis_some {A B} (f : A -> B -> option A) (g : A -> B -> A)
    (P : A -> Prop) (Q : B -> Prop) a b :
  (forall x y, P x -> Q y -> f x y = Some (g x y)) ->
  length a = length b -> Forall P a -> Forall Q b ->
  iadd_axis f a b = Some (zipw g a b).
Proof.
  intros Hf Hl Ha Hb; unfold iadd_axis; rewrite Hl, Nat.eqb_refl.
  eapply mapM2_some; eauto.
Qed.

(** [out += rhs] on arrays of one shape is the elementwise sum. *)
Lemma iadd3_same {K} {NK : Num K} (out rhs : grid K) nx ny nz :
  wf3 out nx ny nz -> wf3 rhs nx ny nz -> iadd3 out rhs = Some (gzip3 nadd out rhs).
Proof.
  intros [Ho Fo] [Hr Fr]; unfold iadd3, gzip3.
  apply (iadd_axis_some _ _ (fun p => wf2 p ny nz) (fun p => wf2 p ny nz));
    auto; [|congruence].
  intros x y [Hx Fx] [Hy Fy].
  apply (iadd_axis_some _ _ (fun r => length r = nz) (fun r => length r = nz));
    auto; [|congruence].
  intros u v Hu Hv.
  apply (iadd_axis_some _ _ (fun _ => True) (fun _ => True)); auto; [congruence| |];
    apply Forall_forall; auto.
Qed.

Lemma nth_slice1 {A} s (l : list A) i d :
  i + 2 < length l ->
  nth i (slice1 s l) d =
  nth (i + match s with S_mid => 1 | S_lo => 0 | S_hi => 2 end) l d.
Proof.
  intros Hi; destruct s; unfold slice1.
  - rewrite nth_skipn, nth_firstn.
    replace (1 + i) with (i + 1) by lia.
    destruct (Nat.ltb_spec (i + 1) (length l - 1)); [reflexivity|lia].
  - rewrite nth_firstn, Nat.add_0_r.
    destruct (Nat.ltb_spec i (length l - 2)); [reflexivity|lia].
  - rewrite nth_skipn; f_equal; lia.
Qed.

Lemma at3_slice3 {A} s0 s1 s2 (g : grid A) nx ny nz i j k d :
  wf3 g (nx + 2) (ny + 2) (nz + 2) -> i < nx -> j < ny -> k < nz ->
  at3 (slice3 s0 s1 s2 g) i j k d = at3 g (i + soff s0) (j + soff s1) (k + soff s2) d.
Proof.
  intros Hg Hi Hj Hk.
  assert (Ho : forall s, soff s <= 2) by (intros []; simpl; lia).
  pose proof (Ho s0); pose proof (Ho s1); pose proof (Ho s2).
  destruct (wf3_row g (nx + 2) (ny + 2) (nz + 2) (i + soff s0) (j + soff s1) Hg)
    as [L R]; try lia.
  destruct Hg as [Hg _].
  unfold slice3, at3.
  rewrite nth_slice1 by (rewrite length_map; lia); fold (soff s0).
  rewrite (nth_map_in _ _ _ []) by lia.
  rewrite nth_slice1 by (rewrite length_map; lia); fold (soff s1).
  rewrite (nth_map_in _ _ _ []) by lia.
  rewrite nth_slice1 by lia; reflexivity.
Qed.

Lemma nth_pad_const1 {A} (z : A) l i d :
  i <= length l + 1 ->
  nth i (pad_const1 z l) d = if (1 <=? i) && (i <=? length l) then nth (i - 1) l d else z.
Proof.
  intros Hi; unfold pad_const1; destruct i as [|i]; [reflexivity|].
  cbn [nth]; change (1 <=? S i) with true; rewrite andb_true_l.
  replace (S i - 1) with i by lia.
  destruct (Nat.leb_spec (S i) (length l)).
  - rewrite app_nth1 by lia; reflexivity.
  - rewrite app_nth2 by lia; replace (i - length l) with 0 by lia; reflexivity.
Qed.

Lemma nth_nth_repeat {A} (z : A) a b j k :
  nth k (nth j (repeat (repeat z a) b) []) z = z.
Proof.
  destruct (Nat.ltb_spec j b).
  - rewrite nth_repeat_lt by lia; apply nth_repeat.
  - rewrite (@nth_overflow _ (repeat (repeat z a) b) j []) by (rewrite repeat_length; lia).
    destruct k; reflexivity.
Qed.

Lemma at3_pad_const3 {A} (z : A) (g : grid A) nx ny nz i j k :
  wf3 g (S nx) (S ny) nz -> i <= S nx + 1 -> j <= S ny + 1 -> k <= nz + 1 ->
  at3 (pad_const3 z g) i j k z =
  if (1 <=? i) && (i <=? S nx) && (1 <=? j) && (j <=? S ny) && (1 <=? k) && (k <=? nz)
  then at3 g (i - 1) (j - 1) (k - 1) z else z.
Proof.
  intros Hw Hi Hj Hk; unfold pad_const3; rewrite (shape3_wf g nx ny nz Hw).
  destruct Hw as [Hg Fg]; unfold at3.
  rewrite nth_pad_const1 by (rewrite length_map; lia).
  rewrite length_map, Hg.
  destruct ((1 <=? i) && (i <=? S nx)) eqn:Ei; cbn [andb]; [|apply nth_nth_repeat].
  apply andb_true_iff in Ei; destruct Ei as [Ei1 Ei2];
    apply Nat.leb_le in Ei1; apply Nat.leb_le in Ei2.
  assert (P : wf2 (nth (i - 1) g []) (S ny) nz)
    by (rewrite Forall_forall in Fg; apply Fg, nth_In; lia).
  destruct P as [Hp Fp].
  rewrite (nth_map_in _ _ _ []) by lia.
  rewrite nth_pad_const1 by (rewrite length_map; lia).
  rewrite length_map, Hp.
  destruct ((1 <=? j) && (j <=? S ny)) eqn:Ej; cbn [andb]; [|apply nth_repeat].
  apply andb_true_iff in Ej; destruct Ej as [Ej1 Ej2];
    apply Nat.leb_le in Ej1; apply Nat.leb_le in Ej2.
  assert (Hr : length (nth (j - 1) (nth (i - 1) g []) []) = nz)
    by (rewrite Forall_forall in Fp; apply Fp, nth_In; lia).
  rewrite (nth_map_in _ _ _ []) by lia.
  rewrite nth_pad_const1 by lia.
  rewrite Hr; reflexivity.
Qed.

Lemma at3_const3 {A} nx ny nz (x : A) i j k d :
  i < nx -> j < ny -> k < nz -> at3 (const3 nx ny nz x) i j k d = x.
Proof.
  intros Hi Hj Hk; unfold at3, const3.
  rewrite !nth_repeat_lt by lia; reflexivity.
Qed.

Lemma at3_slice3_pad {K} {NK : Num K} (m : grid (V3 K)) s0 s1 s2 i j k :
  wf3 m Nx Ny Nz -> i < Nx -> j < Ny -> k < Nz ->
  at3 (slice3 s0 s1 s2 (pad_const3 v0 m)) i j k v0 =
  cell0 m (Z.of_nat i + zoff s0) (Z.of_nat j + zoff s1) (Z.of_nat k + zoff s2).
Proof.
  intros Hw Hi Hj Hk.
  pose proof (wf3_pad_const3 v0 m 59 59 12 Hw) as Hp.
  rewrite (at3_slice3 _ _ _ _ 60 60 12) by (exact Hp || (unfold Nx, Ny, Nz in *; lia)).
  assert (Ho : forall s, Z.of_nat (soff s) = (zoff s + 1)%Z /\ soff s <= 2)
    by (intros []; simpl; lia).
  destruct (Ho s0) as [E0 L0], (Ho s1) as [E1 L1], (Ho s2) as [E2 L2].
  rewrite (at3_pad_const3 v0 m 59 59 12)
    by (exact Hw || (unfold Nx, Ny, Nz in *; lia)).
  unfold cell0, Nx, Ny, Nz in *.
  match goal with
  | |- (if ?b then _ else _) = (if ?c then _ else _) =>
      destruct b eqn:Eb; destruct c eqn:Ec
  end;
  rewrite ?andb_true_iff, ?andb_false_iff, ?Nat.leb_le, ?Nat.leb_gt,
    ?Z.leb_le, ?Z.leb_gt, ?Z.ltb_lt, ?Z.ltb_ge in *; try lia; auto.
  f_equal; lia.
Qed.

Lemma at3_cdiff {K} {NK : Num K} (m : grid (V3 K)) s0 s1 s2 t0 t1 t2 c h i j k d :
  wf3 m Nx Ny Nz -> i < Nx -> j < Ny -> k < Nz ->
  at3 (cdiff (pad_const3 v0 m) (slice3 s0 s1 s2) (slice3 t0 t1 t2) c h) i j k d =
  ndiv (nsub
          (vcomp c (cell0 m (Z.of_nat i + zoff s0) (Z.of_nat j + zoff s1) (Z.of_nat k + zoff s2)))
          (vcomp c (cell0 m (Z.of_nat i + zoff t0) (Z.of_nat j + zoff t1) (Z.of_nat k + zoff t2))))
       (nmul two h).
Proof.
  intros Hw Hi Hj Hk.
  assert (Hs : forall s0 s1 s2, wf3 (slice3 s0 s1 s2 (pad_const3 v0 m)) Nx Ny Nz)
    by (intros; apply (wf3_slice3 _ _ _ _ 60 60 12), (wf3_pad_const3 v0 m 59 59 12 Hw)).
  unfold cdiff; cbv zeta.
  rewrite (at3_gmap3 _ _ Nx Ny Nz _ _ _ n0) by eauto with wf.
  rewrite (at3_gzip3 _ _ _ Nx Ny Nz _ _ _ n0 n0) by eauto with wf.
  rewrite !(at3_gmap3 _ _ Nx Ny Nz _ _ _ v0) by eauto with wf.
  rewrite !at3_slice3_pad by auto; reflexivity.
Qed.

End Cells.


(** * Euclidean norms in exact arithmetic *)

Lemma norm3_vmap_scale (f : R -> R) (a : R) (v : V3 R) :
  (forall x, f x = (a * x)%R) -> norm3 (vmap f v) = (Rabs a * norm3 v)%R.
Proof.
  intros Hf; destruct v as [x y z]; unfold norm3, vmap; simpl; rewrite !Hf.
  replace (a * x * (a * x) + a * y * (a * y) + a * z * (a * z))%R
    with (Rsqr a * (x * x + y * y + z * z))%R by (unfold Rsqr; ring).
  rewrite sqrt_mult_alt by apply Rle_0_sqr.
  rewrite sqrt_Rsqr_abs; reflexivity.
Qed.

Lemma norm3_nonneg (v : V3 R) : (0 <= norm3 v)%R.
Proof. unfold norm3; simpl; apply sqrt_pos. Qed.

Lemma norm3_rescale (v : V3 R) (a : R) :
  norm3 v <> 0%R -> (0 <= a)%R ->
  norm3 (vmap (fun x => (x / norm3 v * a)%R) v) = a.
Proof.
  intros Hn Ha.
  rewrite (norm3_vmap_scale _ (a / norm3 v)) by (intros; field; exact Hn).
  pose proof (norm3_nonneg v).
  rewrite Rabs_pos_eq.
  - field; exact Hn.
  - apply Rmult_le_pos; [exact Ha|]; left; apply Rinv_0_lt_compat; lra.
Qed.

Lemma norm3_neq0 (v : V3 R) :
  (vx v <> 0 \/ vy v <> 0 \/ vz v <> 0)%R -> norm3 v <> 0%R.
Proof.
  destruct v as [x y z]; unfold norm3; simpl; intros H E.
  apply sqrt_eq_0 in E; [|nra].
  destruct H as [H|[H|H]]; nra.
Qed.

(** * Uniform zero arrays in exact arithmetic *)

Lemma pad_const1_repeat {A} (x : A) n : pad_const1 x (repeat x n) = repeat x (n + 2).
Proof.
  unfold pad_const1; replace (n + 2) with (S (n + 1)) by lia; cbn [repeat].
  rewrite repeat_app; reflexivity.
Qed.

Lemma pad_const3_const3 {A} (x : A) a b c :
  pad_const3 x (const3 (S a) (S b) c x) = const3 (S a + 2) (S b + 2) (c + 2) x.
Proof.
  assert (Hs : shape3 (const3 (S a) (S b) c x) = (S a, S b, c))
    by (unfold shape3, const3; simpl; rewrite !repeat_length; reflexivity).
  unfold pad_const3; rewrite Hs; cbv beta iota.
  unfold const3; rewrite map_repeat, map_repeat, !pad_const1_repeat; reflexivity.
Qed.

(** In exact arithmetic [np.isclose(x, 0, rtol, atol)] is
    [|x| <= atol or x == 0]. *)
Lemma isclose_R0 (rtol atol x : R) :
  isclose rtol atol x 0%R = orb (R_leb (Rabs x) atol) (R_eqb x 0%R).
Proof.
  unfold isclose; simpl.
  rewrite Rminus_0_r, Rabs_R0, Rmult_0_r, Rplus_0_r.
  replace (0 - 0)%R with 0%R by ring.
  unfold R_eqb at 1; destruct (Req_dec_T 0 0) as [_|Hn]; [|contradiction].
  rewrite andb_true_r; reflexivity.
Qed.

Lemma isclose_R0_0 (rtol atol : R) : isclose rtol atol 0%R 0%R = true.
Proof.
  rewrite isclose_R0; unfold R_eqb; destruct (Req_dec_T 0 0) as [_|Hn];
    [apply orb_true_r|contradiction].
Qed.

Lemma allclose0_const3_zero a b c : allclose0 (flatV (const3 a b c (v0 (K := R)))) = true.
Proof.
  unfold allclose0; apply forallb_forall; intros x Hx.
  assert (x = 0%R) as ->.
  { unfold flatV, flat3, const3 in Hx.
    apply in_concat in Hx; destruct Hx as [l [Hl Hx]].
    apply in_map_iff in Hl; destruct Hl as [v [<- Hv]].
    apply in_concat in Hv; destruct Hv as [r [Hr Hv]].
    apply in_concat in Hr; destruct Hr as [p [Hp Hr]].
    apply repeat_spec in Hp; subst p.
    apply repeat_spec in Hr; subst r.
    apply repeat_spec in Hv; subst v.
    simpl in Hx; intuition. }
  apply isclose_R0_0.
Qed.

Lemma get_m_zero a b c : get_m (const3 a b c (v0 (K := R))) = const3 a b c v0.
Proof.
  unfold get_m, get_M; rewrite allclose0_const3_zero.
  unfold zeros_like; rewrite gmap3_const3; reflexivity.
Qed.

(** * The relaxation loop *)

Section Driver.
Context {K : Type} {NK : Num K}.
Variable np_tanh : K -> K.

Lemma set_M_same (s : store) o (a : grid (V3 K)) : set_M s o a o = a.
Proof. unfold set_M; rewrite Nat.eqb_refl; reflexivity. Qed.

Lemma set_M_other (s : store) o (a : grid (V3 K)) o' : o' <> o -> set_M s o a o' = s o'.
Proof. intros Hn; unfold set_M; apply Nat.eqb_neq in Hn; rewrite Hn; reflexivity. Qed.

Lemma cal_effective_field_ok c (M : grid (V3 K)) :
  wf3 M Nx Ny Nz ->
  exists h E, cal_effective_field c M = Some (h, E) /\ wf3 h Nx Ny Nz.
Proof.
  intros Hw; unfold cal_effective_field, energy.
  destruct (wf3_effective_field (Exchange (A c)) M Hw) as [h1 [E1 W1]].
  destruct (wf3_effective_field (Zeeman (H c)) M Hw) as [h2 [E2 W2]].
  destruct (wf3_effective_field (DMI (D c)) M Hw) as [h3 [E3 W3]].
  destruct (wf3_energy_density (Exchange (A c)) M Hw) as [w1 [F1 _]].
  destruct (wf3_energy_density (Zeeman (H c)) M Hw) as [w2 [F2 _]].
  destruct (wf3_energy_density (DMI (D c)) M Hw) as [w3 [F3 _]].
  rewrite E1, E2, E3, F1, F2, F3.
  do 2 eexists; split; [reflexivity|].
  apply wf3_gzip3; [apply wf3_gzip3|]; assumption.
Qed.

Lemma flatV_nonempty (g : grid (V3 K)) a b c :
  wf3 g (S a) (S b) (S c) -> exists x l, flatV g = x :: l.
Proof.
  intros [Hg Fg]; destruct g as [|p g]; [discriminate|].
  destruct (Forall_inv Fg) as [Hp Fp].
  destruct p as [|r p]; [discriminate|].
  pose proof (Forall_inv Fp) as Hr.
  destruct r as [|v r]; [discriminate|].
  unfold flatV, flat3; simpl; eauto.
Qed.

Lemma np_max_some (g : grid (V3 K)) a b c :
  wf3 g (S a) (S b) (S c) -> exists x, np_max (flatV g) = Some x.
Proof. intros Hw; destruct (flatV_nonempty g a b c Hw) as [x [l ->]]; simpl; eauto. Qed.

Lemma mf_step_ok c tol o (s : store) (H_eff : grid (V3 K)) :
  wf3 (s o) Nx Ny Nz -> wf3 H_eff Nx Ny Nz ->
  exists s' H' E' b, mf_step np_tanh c tol o s H_eff = Some (s', H', E', b) /\
    wf3 (s' o) Nx Ny Nz /\ wf3 H' Nx Ny Nz.
Proof.
  intros Hs Hh; unfold mf_step; cbv zeta.
  rewrite !set_M_same.
  pose proof (wf3_update_M np_tanh c (s o) H_eff lamda_default _ _ _ Hs Hh) as Hu.
  destruct (cal_effective_field_ok c _ Hu) as [h [E [Ec Hw]]]; rewrite Ec.
  match goal with |- context [np_max (flatV ?g)] =>
    assert (Hg : wf3 g 60 60 12) by (apply wf3_gmap3, wf3_gzip3; apply wf3_get_m; assumption);
    destruct (np_max_some g 59 59 11 Hg) as [x Ex]; rewrite Ex
  end.
  do 4 eexists; split; [reflexivity|].
  rewrite set_M_same; split; assumption.
Qed.

Lemma mf_step_frame c tol o (s : store) H_eff s' H' E' b :
  mf_step np_tanh c tol o s H_eff = Some (s', H', E', b) ->
  forall o', o' <> o -> s' o' = s o'.
Proof.
  unfold mf_step; cbv zeta.
  destruct (cal_effective_field _ _) as [HE|]; [|discriminate].
  destruct (np_max _) as [x|]; [|discriminate].
  intros E; injection E as <- _ _ _; intros o' Ho; apply set_M_other; exact Ho.
Qed.

Lemma mf_states_front c tol o k (s : store) H_eff E :
  mf_states np_tanh c tol o (S k) s H_eff E =
  match mf_step np_tanh c tol o s H_eff with
  | Some (s1, H1, E1, _) => mf_states np_tanh c tol o k s1 H1 E1
  | None => None
  end.
Proof.
  revert s H_eff E; induction k as [|k IH]; intros s H_eff E.
  - cbn [mf_states].
    destruct (mf_step np_tanh c tol o s H_eff) as [[[[s1 H1] E1] b]|]; reflexivity.
  - change (mf_states np_tanh c tol o (S (S k)) s H_eff E) with
      (let* st := mf_states np_tanh c tol o (S k) s H_eff E in
       let '(s1, H1, _) := st in
       let* r := mf_step np_tanh c tol o s1 H1 in
       let '(s2, H2, E2, _) := r in Some (s2, H2, E2)).
    rewrite IH.
    destruct (mf_step np_tanh c tol o s H_eff) as [[[[s1 H1] E1] b]|]; reflexivity.
Qed.

Lemma mf_test_front c tol o k (s : store) H_eff E :
  mf_test np_tanh c tol o (S k) s H_eff E =
  match mf_step np_tanh c tol o s H_eff with
  | Some (s1, H1, E1, _) => mf_test np_tanh c tol o k s1 H1 E1
  | None => None
  end.
Proof.
  unfold mf_test; rewrite mf_states_front.
  destruct (mf_step np_tanh c tol o s H_eff) as [[[[s1 H1] E1] b]|]; reflexivity.
Qed.

Lemma mf_test_0 c tol o (s : store) H_eff E :
  mf_test np_tanh c tol o 0 s H_eff E =
  match mf_step np_tanh c tol o s H_eff with
  | Some (_, _, _, b) => Some b
  | None => None
  end.
Proof. reflexivity. Qed.

Lemma mf_states_frame c tol o k : forall (s : store) H_eff E s' H' E',
  mf_states np_tanh c tol o k s H_eff E = Some (s', H', E') ->
  forall o', o' <> o -> s' o' = s o'.
Proof.
  induction k as [|k IH]; intros s H_eff E s' H' E' Hk o' Ho.
  - cbn in Hk; injection Hk as <- _ _; reflexivity.
  - rewrite mf_states_front in Hk.
    destruct (mf_step np_tanh c tol o s H_eff) as [[[[s1 H1] E1] b]|] eqn:Es; [|discriminate].
    rewrite (IH _ _ _ _ _ _ Hk o' Ho).
    exact (mf_step_frame _ _ _ _ _ _ _ _ _ Es o' Ho).
Qed.

(** The loop from pass [count] with [fuel] rounds of budget runs [m] passes:
    none of the first [m] tests succeeds, and either test [m] succeeds
    within the budget and its state is returned, or the budget is spent. *)
Lemma mf_loop_spec c tol o fuel : forall count (s : store) H_eff E,
  wf3 (s o) Nx Ny Nz -> wf3 H_eff Nx Ny Nz ->
  exists s' E' m,
    mf_loop np_tanh c tol o fuel count s H_eff E = Some (s', E', count + m) /\
    m <= fuel /\ m <= maxiter c - count /\
    (forall k, k < m -> mf_test np_tanh c tol o k s H_eff E = Some false) /\
    ((m < fuel /\ count + m < maxiter c /\
      mf_test np_tanh c tol o m s H_eff E = Some true /\
      exists H', mf_states np_tanh c tol o (S m) s H_eff E = Some (s', H', E')) \/
     ((m = fuel \/ maxiter c <= count + m) /\
      exists H', mf_states np_tanh c tol o m s H_eff E = Some (s', H', E'))).
Proof.
  induction fuel as [|f IH]; intros count s H_eff E Hs Hh.
  - exists s, E, 0; rewrite Nat.add_0_r; split; [reflexivity|].
    split; [lia|split; [lia|split; [intros; lia|]]].
    right; split; [left; reflexivity|exists H_eff; reflexivity].
  - cbn [mf_loop].
    destruct (count <? maxiter c) eqn:Ec.
    + apply Nat.ltb_lt in Ec.
      destruct (mf_step_ok c tol o s H_eff Hs Hh) as [s1 [H1 [E1 [b [Es [Hs1 Hh1]]]]]].
      rewrite Es; cbv beta iota.
      destruct b.
      * exists s1, E1, 0; rewrite Nat.add_0_r; split; [reflexivity|].
        split; [lia|split; [lia|split; [intros; lia|]]].
        left; split; [lia|split; [lia|split]].
        -- rewrite mf_test_0, Es; reflexivity.
        -- exists H1; cbn [mf_states]; rewrite Es; reflexivity.
      * destruct (IH (S count) s1 H1 E1 Hs1 Hh1)
          as [s' [E' [m [El [Hm1 [Hm2 [Hf Hd]]]]]]].
        exists s', E', (S m); rewrite El, Nat.add_succ_r; split; [reflexivity|].
        split; [lia|split; [lia|split]].
        -- intros [|k] Hk.
           ++ rewrite mf_test_0, Es; reflexivity.
           ++ rewrite mf_test_front, Es; apply Hf; lia.
        -- destruct Hd as [[Hm [Hc [Ht [H' Hst]]]] | [Hm [H' Hst]]].
           ++ left; split; [lia|split; [lia|split]].
              ** rewrite mf_test_front, Es; exact Ht.
              ** exists H'; rewrite mf_states_front, Es; exact Hst.
           ++ right; split; [lia|].
              exists H'; rewrite mf_states_front, Es; exact Hst.
    + apply Nat.ltb_ge in Ec.
      exists s, E, 0; rewrite Nat.add_0_r; split; [reflexivity|].
      split; [lia|split; [lia|split; [intros; lia|]]].
      right; split; [right; lia|exists H_eff; reflexivity].
Qed.

(** One pass reads the store only at the object it updates. *)
Lemma mf_step_congr c tol (s1 s2 : store) o1 o2 (H_eff : grid (V3 K)) :
  s1 o1 = s2 o2 ->
  match mf_step np_tanh c tol o1 s1 H_eff, mf_step np_tanh c tol o2 s2 H_eff with
  | Some (s1', H1, E1, b1), Some (s2', H2, E2, b2) =>
      s1' o1 = s2' o2 /\ H1 = H2 /\ E1 = E2 /\ b1 = b2
  | None, None => True
  | _, _ => False
  end.
Proof.
  intros Hs; unfold mf_step; cbv zeta; rewrite !set_M_same, Hs.
  destruct (cal_effective_field c (update_M np_tanh c (s2 o2) H_eff lamda_default))
    as [HE|]; [|exact I].
  destruct (np_max _) as [x|]; [|exact I].
  cbv beta iota; rewrite !set_M_same; auto.
Qed.

Lemma mf_loop_congr c tol o1 o2 fuel : forall count (s1 s2 : store) H_eff E,
  s1 o1 = s2 o2 ->
  match mf_loop np_tanh c tol o1 fuel count s1 H_eff E,
        mf_loop np_tanh c tol o2 fuel count s2 H_eff E with
  | Some (s1', E1, n1), Some (s2', E2, n2) => s1' o1 = s2' o2 /\ E1 = E2 /\ n1 = n2
  | None, None => True
  | _, _ => False
  end.
Proof.
  induction fuel as [|f IH]; intros count s1 s2 H_eff E Hs.
  - cbn [mf_loop]; auto.
  - cbn [mf_loop]; destruct (count <? maxiter c); [|auto].
    pose proof (mf_step_congr c tol s1 s2 o1 o2 H_eff Hs) as Hc.
    destruct (mf_step np_tanh c tol o1 s1 H_eff) as [[[[s1' H1] E1] b1]|];
      destruct (mf_step np_tanh c tol o2 s2 H_eff) as [[[[s2' H2] E2] b2]|];
      try contradiction; [|exact I].
    destruct Hc as [Hs' [<- [<- <-]]].
    cbv beta iota; destruct b1; [auto|apply IH; exact Hs'].
Qed.

End Driver.

(** * The claims *)

Section Claims.
Context {K : Type} {NK : Num K}.

(** C6: [Zeeman.effective_field] does not read its field argument: for any
    two fields it returns the same array, the vector [H] in every cell of the
    (Nx, Ny, Nz) grid. *)
Theorem zeeman_effective_field_independent (H : V3 K) (M1 M2 : grid (V3 K)) :
  effective_field (Zeeman H) M1 = effective_field (Zeeman H) M2 /\
  effective_field (Zeeman H) M1 = Some (const3 Nx Ny Nz H).
Proof. rewrite !effective_field_Zeeman; split; reflexivity. Qed.

(** C7: when the per-cell norms of the effective field are all close to
    zero ([np.allclose(H_norm, 0)]), [update_M] returns the old array
    unchanged. *)
Theorem update_M_stationary (np_tanh : K -> K) (c : consts) (M H_eff : grid (V3 K))
    (lamda : K) :
  allclose0 (flat3 (norm_axis3 H_eff)) = true ->
  update_M np_tanh c M H_eff lamda = M.
Proof. intros Hc; unfold update_M; cbv zeta; rewrite Hc; reflexivity. Qed.

(** C10: the Zeeman field always has the module shape (Nx, Ny, Nz) = (60,
    60, 12); for a field of any nonempty shape, [curl] succeeds exactly when
    that shape is the module shape; and at the module shape [get_m],
    [laplace], [curl], the three effective fields, the energy densities and
    [update_M] all return arrays of the field's shape. *)
Theorem global_shape_fixed (M : grid (V3 K)) nx ny nz :
  0 < nx -> 0 < ny -> 0 < nz -> wf3 M nx ny nz ->
  (forall H, exists z, effective_field (Zeeman H) M = Some z /\ wf3 z Nx Ny Nz) /\
  (curl M <> None <-> (nx, ny, nz) = (Nx, Ny, Nz)) /\
  ((nx, ny, nz) = (Nx, Ny, Nz) ->
     wf3 (get_m M) nx ny nz /\
     wf3 (laplace M) nx ny nz /\
     (exists c, curl M = Some c /\ wf3 c nx ny nz) /\
     (forall t, exists h, effective_field t M = Some h /\ wf3 h nx ny nz) /\
     (forall t, exists w, energy_density t M = Some w /\ wf3 w nx ny nz) /\
     (forall (np_tanh : K -> K) (c : consts) H_eff lamda, wf3 H_eff nx ny nz ->
        wf3 (update_M np_tanh c M H_eff lamda) nx ny nz)).
Proof.
  intros Hx Hy Hz Hw.
  destruct nx as [|nx]; [lia|]; destruct ny as [|ny]; [lia|]; destruct nz as [|nz]; [lia|].
  destruct (curl_shape M nx ny nz Hw) as [P1 P2].
  split; [|split].
  - intros H; rewrite effective_field_Zeeman; eexists; split; [reflexivity|apply wf3_const3].
  - split.
    + intros Hn.
      destruct (Nat.eq_dec (S nx) Nx) as [E1|E1];
        [|exfalso; apply Hn, P2; intros E; injection E; unfold Nx, Ny, Nz in *; lia].
      destruct (Nat.eq_dec (S ny) Ny) as [E2|E2];
        [|exfalso; apply Hn, P2; intros E; injection E; unfold Nx, Ny, Nz in *; lia].
      destruct (Nat.eq_dec (S nz) Nz) as [E3|E3];
        [|exfalso; apply Hn, P2; intros E; injection E; unfold Nx, Ny, Nz in *; lia].
      rewrite E1, E2, E3; reflexivity.
    + intros E; destruct (P1 E) as [c [Ec _]]; rewrite Ec; discriminate.
  - intros E.
    assert (nx = 59 /\ ny = 59 /\ nz = 11) as [-> [-> ->]]
      by (unfold Nx, Ny, Nz in E; injection E; lia).
    split; [|split; [|split; [|split; [|split]]]].
    + now apply wf3_get_m.
    + now apply wf3_laplace.
    + exact (P1 eq_refl).
    + intros t; exact (wf3_effective_field t M Hw).
    + intros t; exact (wf3_energy_density t M Hw).
    + intros np_tanh c H_eff lamda Hh; now apply wf3_update_M.
Qed.

(** C2 (amended): for a field of the module shape, [Mean_field_difference]
    returns the mutated store (no other object changed), the final energy
    and a count [n <= maxiter]: the stopping test
    [np.allclose(np.max(abs(m_new - m_old)), 0, atol=tol)] fails at the
    passes [0 .. n-1]; when [n < maxiter] it succeeds at pass [n] and the
    state after that pass is returned; when [n = maxiter] the state after
    [maxiter] passes is returned; and [n = maxiter] exactly when no pass
    before the cap converged. *)
Theorem relaxation_terminates (np_tanh : K -> K) (c : consts) (tol : K) (s : store) (o : nat) :
  wf3 (s o) Nx Ny Nz ->
  exists s' E n,
    Mean_field_difference np_tanh c tol s o = Some (s', E, n) /\
    n <= maxiter c /\
    (forall o', o' <> o -> s' o' = s o') /\
    exists H0 E0, cal_effective_field c (s o) = Some (H0, E0) /\
      (forall k, k < n -> mf_test np_tanh c tol o k s H0 E0 = Some false) /\
      (n < maxiter c ->
         mf_test np_tanh c tol o n s H0 E0 = Some true /\
         exists H', mf_states np_tanh c tol o (S n) s H0 E0 = Some (s', H', E)) /\
      (n = maxiter c ->
         exists H', mf_states np_tanh c tol o n s H0 E0 = Some (s', H', E)) /\
      (n = maxiter c <->
         forall k, k < maxiter c -> mf_test np_tanh c tol o k s H0 E0 = Some false).
Proof.
  intros Hw.
  destruct (cal_effective_field_ok c (s o) Hw) as [H0 [E0 [Ec Hh]]].
  destruct (mf_loop_spec np_tanh c tol o (maxiter c) 0 s H0 E0 Hw Hh)
    as [s' [E' [m [El [Hm1 [Hm2 [Hf Hd]]]]]]].
  exists s', E', m.
  split; [unfold Mean_field_difference; rewrite Ec; exact El|].
  split; [lia|].
  split.
  { intros o' Ho.
    destruct Hd as [[_ [_ [_ [H' Hst]]]] | [_ [H' Hst]]];
      exact (mf_states_frame np_tanh c tol o _ _ _ _ _ _ _ Hst o' Ho). }
  exists H0, E0; split; [exact Ec|].
  split; [exact Hf|].
  split; [|split].
  - intros Hlt; destruct Hd as [[_ [_ [Ht Hst]]] | [Hm _]]; [split; assumption|lia].
  - intros Heq; destruct Hd as [[_ [Hc _]] | [_ Hst]]; [lia|exact Hst].
  - split.
    + intros Heq; rewrite <- Heq; exact Hf.
    + intros Hall; destruct Hd as [[_ [Hc [Ht _]]] | [Hm _]]; [|lia].
      rewrite (Hall m) in Ht by lia; discriminate.
Qed.

(** C8: the relaxation reads the store only at the object it relaxes: two
    runs, from any stores and objects holding the same initial array, with
    the same constants and tolerance, both fail or both return the same
    count, the same energy and the same final array. *)
Theorem relaxation_deterministic (np_tanh : K -> K) (c : consts) (tol : K)
    (s1 s2 : store) (o1 o2 : nat) :
  s1 o1 = s2 o2 ->
  match Mean_field_difference np_tanh c tol s1 o1,
        Mean_field_difference np_tanh c tol s2 o2 with
  | Some (s1', E1, n1), Some (s2', E2, n2) => n1 = n2 /\ E1 = E2 /\ s1' o1 = s2' o2
  | None, None => True
  | _, _ => False
  end.
Proof.
  intros Hs; unfold Mean_field_difference; rewrite Hs.
  destruct (cal_effective_field c (s2 o2)) as [[h E]|]; [|exact I].
  cbv beta iota; cbn [fst snd].
  pose proof (mf_loop_congr np_tanh c tol o1 o2 (maxiter c) 0 s1 s2 h E Hs) as Hc.
  destruct (mf_loop np_tanh c tol o1 (maxiter c) 0 s1 h E) as [[[a Ea] na]|];
    destruct (mf_loop np_tanh c tol o2 (maxiter c) 0 s2 h E) as [[[b Eb] nb]|];
    try contradiction; [|exact I].
  destruct Hc as [H1 [H2 H3]]; auto.
Qed.

End Claims.

(** C3: in exact arithmetic, [laplace] of a spatially constant field of
    any nonempty shape is zero in every cell: the edge padding repeats the
    constant in the ghost cells, so each second difference vanishes. *)
Theorem laplace_uniform (v : V3 R) nx ny nz :
  0 < nx -> 0 < ny -> 0 < nz ->
  laplace (const3 nx ny nz v) = const3 nx ny nz v0.
Proof.
  intros Hx Hy Hz.
  destruct nx as [|a]; [lia|]; destruct ny as [|b]; [lia|]; destruct nz as [|c]; [lia|].
  unfold laplace; cbv zeta.
  destruct (get_m_const3 v (S a) (S b) (S c)) as [w ->].
  unfold zeros_like, second_diff.
  rewrite pad_edge3_const3, !slice3_const3, !gmap3_const3, !gzip3_const3,
    !gmap3_const3, !gzip3_const3.
  f_equal; destruct w as [wx wy wz]; unfold vzip, vmap, v0, two; simpl.
  unfold R_lit; simpl.
  f_equal; unfold Rdiv; ring.
Qed.

(** C1 (amended): in exact arithmetic, for the all-zero field of a nonempty
    shape, [laplace] and the Exchange and DMI effective fields return the
    all-zero array of that shape, [curl] returns it at the module shape (and
    raises at any other shape), while the Zeeman effective field is the
    external field [H] in every cell of the module grid, not zero. *)
Theorem zero_field_fixed nx ny nz :
  0 < nx -> 0 < ny -> 0 < nz ->
  laplace (const3 nx ny nz (v0 (K := R))) = const3 nx ny nz v0 /\
  (forall A, effective_field (Exchange A) (const3 nx ny nz (v0 (K := R))) =
               Some (const3 nx ny nz v0)) /\
  (forall D, effective_field (DMI D) (const3 nx ny nz (v0 (K := R))) =
               Some (const3 nx ny nz v0)) /\
  ((nx, ny, nz) = (Nx, Ny, Nz) ->
     curl (const3 nx ny nz (v0 (K := R))) = Some (const3 nx ny nz v0)) /\
  ((nx, ny, nz) <> (Nx, Ny, Nz) -> curl (const3 nx ny nz (v0 (K := R))) = None) /\
  (forall H, effective_field (Zeeman H) (const3 nx ny nz (v0 (K := R))) =
               Some (const3 Nx Ny Nz H)).
Proof.
  intros Hx Hy Hz.
  destruct nx as [|a]; [lia|]; destruct ny as [|b]; [lia|]; destruct nz as [|c]; [lia|].
  split; [|split; [|split; [|split; [|split]]]].
  - unfold laplace; cbv zeta; rewrite get_m_zero.
    unfold zeros_like, second_diff.
    rewrite pad_edge3_const3, !slice3_const3, !gmap3_const3, !gzip3_const3,
      !gmap3_const3, !gzip3_const3.
    f_equal; unfold vzip, vmap, v0, two; simpl.
    unfold R_lit; simpl.
    f_equal; unfold Rdiv; ring.
  - intros A; unfold effective_field, get_M; rewrite allclose0_const3_zero.
    unfold zeros_like; rewrite gmap3_const3; reflexivity.
  - intros D; unfold effective_field, get_M; rewrite allclose0_const3_zero.
    unfold zeros_like; rewrite gmap3_const3; reflexivity.
  - intros E; unfold Nx, Ny, Nz in E; injection E as -> -> ->.
    unfold curl, cdiff, zeros3, zeros_like; cbv zeta; rewrite get_m_zero.
    rewrite (pad_const3_const3 _ 59 59 12).
    repeat first [rewrite slice3_const3 | rewrite gmap3_const3 | rewrite gzip3_const3].
    rewrite !(iadd3_same (const3 60 60 12 0%R) _ 60 60 12) by apply wf3_const3.
    repeat first [rewrite gmap3_const3 | rewrite gzip3_const3].
    rewrite !(iadd3_same (const3 60 60 12 0%R) _ 60 60 12) by apply wf3_const3.
    repeat first [rewrite gmap3_const3 | rewrite gzip3_const3].
    do 2 f_equal; unfold v0; simpl; f_equal; unfold Rdiv; ring.
  - intros E; apply (proj2 (curl_shape _ a b c (wf3_const3 _ _ _ _))); exact E.
  - intros H; apply effective_field_Zeeman.
Qed.

(** C5: the energy density of Exchange and DMI is the shared formula
    [-(mu0/2) * sum_c m_c * Ms * h_c] of the term's effective field [h],
    that of Zeeman the override [-mu0 * Ms * sum_c m_c * h_c]; cell by cell
    (exact arithmetic) the override is twice the shared formula. *)
Theorem energy_density_formulas (M : grid (V3 R)) :
  (forall t, energy_density t M =
     match effective_field t M with
     | None => None
     | Some h => Some (match t with
                       | Zeeman _ => zeeman_energy_density h M
                       | _ => base_energy_density h M
                       end)
     end) /\
  (forall heff nx ny nz i j k,
     wf3 M nx ny nz -> wf3 heff nx ny nz -> i < nx -> j < ny -> k < nz ->
     let m := at3 (get_m M) i j k v0 in
     let Ms := norm3 (at3 M i j k v0) in
     let h := at3 heff i j k v0 in
     at3 (base_energy_density heff M) i j k 0%R =
       (- (mu0 / 2) * (vx m * Ms * vx h + vy m * Ms * vy h + vz m * Ms * vz h))%R /\
     at3 (zeeman_energy_density heff M) i j k 0%R =
       (- mu0 * Ms * (vx m * vx h + vy m * vy h + vz m * vz h))%R /\
     at3 (zeeman_energy_density heff M) i j k 0%R =
       (2 * at3 (base_energy_density heff M) i j k 0%R)%R).
Proof.
  split.
  - intros t; unfold energy_density; destruct (effective_field t M); auto; destruct t; reflexivity.
  - intros heff nx ny nz i j k Hw Hh Hi Hj Hk m Ms h.
    assert (B : at3 (base_energy_density heff M) i j k 0%R =
                (- (mu0 / 2) * (vx m * Ms * vx h + vy m * Ms * vy h + vz m * Ms * vz h))%R).
    { unfold base_energy_density; cbv zeta.
      rewrite (at3_gmap3 _ _ nx ny nz _ _ _ v0) by eauto with wf.
      rewrite (at3_gzip3 _ _ _ nx ny nz _ _ _ 0%R v0) by eauto with wf.
      rewrite (at3_gzip3 _ _ _ nx ny nz _ _ _ v0 v0) by eauto with wf.
      unfold get_Ms, norm_axis3; rewrite (at3_gmap3 _ _ nx ny nz _ _ _ v0) by auto.
      fold Ms; fold m; fold h.
      unfold sum3, vmap, vzip, two; simpl; unfold R_lit; simpl; field. }
    assert (Z : at3 (zeeman_energy_density heff M) i j k 0%R =
                (- mu0 * Ms * (vx m * vx h + vy m * vy h + vz m * vz h))%R).
    { unfold zeeman_energy_density; cbv zeta.
      rewrite (at3_gzip3 _ _ _ nx ny nz _ _ _ 0%R 0%R) by eauto with wf.
      rewrite (at3_gmap3 _ _ nx ny nz _ _ _ v0) by eauto with wf.
      rewrite (at3_gzip3 _ _ _ nx ny nz _ _ _ v0 v0) by eauto with wf.
      unfold get_Ms, norm_axis3; rewrite (at3_gmap3 _ _ nx ny nz _ _ _ v0) by auto.
      fold Ms; fold m; fold h.
      unfold sum3, vmap, vzip; simpl; ring. }
    split; [exact B|split; [exact Z|]].
    rewrite B, Z; field.
Qed.

Ltac curl_wf Hc Hz Hm :=
  repeat first [ assumption | apply Hc | apply Hz | apply Hm | apply wf3_gzip3 | apply wf3_gmap3
               | apply wf3_zeros_like ].

(** C4: for a field of the module shape, [curl] succeeds and, in exact
    arithmetic, each cell is the standard curl of the unit field by central
    differences along the two axes orthogonal to each component, where the
    neighbours outside the grid are zero vectors ([cell0]: Dirichlet
    padding), not copies of the boundary cells. *)
Theorem curl_central_dirichlet (M : grid (V3 R)) :
  wf3 M Nx Ny Nz ->
  exists c, curl M = Some c /\ wf3 c Nx Ny Nz /\
    (forall i j k, i < Nx -> j < Ny -> k < Nz ->
       at3 c i j k v0 = curl_spec (get_m M) i j k).
Proof.
  intros Hw.
  pose proof (wf3_get_m M _ _ _ Hw) as Hm.
  assert (Hc : forall s0 s1 s2 t0 t1 t2 c h,
             wf3 (cdiff (pad_const3 v0 (get_m M)) (slice3 s0 s1 s2) (slice3 t0 t1 t2) c h)
               Nx Ny Nz)
    by (intros; exact (wf3_cdiff _ 59 59 11 _ _ _ _ _ _ _ _ Hm)).
  assert (Hz : wf3 (zeros3 (K := R) Nx Ny Nz) Nx Ny Nz) by apply wf3_const3.
  unfold curl; cbv zeta.
  rewrite !(iadd3_same (zeros3 Nx Ny Nz) _ Nx Ny Nz) by auto.
  rewrite !(iadd3_same _ _ Nx Ny Nz) by curl_wf Hc Hz Hm.
  eexists; split; [reflexivity|split].
  { curl_wf Hc Hz Hm. }
  intros i j k Hi Hj Hk.
  rewrite (at3_gzip3 _ _ _ Nx Ny Nz _ _ _ 0%R (0%R, 0%R)) by curl_wf Hc Hz Hm.
  rewrite (at3_gzip3 _ _ _ Nx Ny Nz _ _ _ 0%R 0%R) by curl_wf Hc Hz Hm.
  rewrite !(at3_gzip3 _ _ _ Nx Ny Nz _ _ _ 0%R 0%R) by curl_wf Hc Hz Hm.
  unfold zeros_like.
  rewrite !(at3_gmap3 _ _ Nx Ny Nz _ _ _ v0) by curl_wf Hc Hz Hm.
  unfold zeros3; rewrite !at3_const3 by auto.
  rewrite !at3_cdiff by auto.
  unfold curl_spec; cbv zeta; cbn [zoff fst snd vcomp vx vy vz v0].
  f_equal; simpl; ring.
Qed.

Ltac wf_auto :=
  repeat first [ assumption | apply wf3_gzip3 | apply wf3_L_result | apply wf3_gmap3 ].

(** C9 (amended): at the zero-temperature sentinel [beta = 9e99], in exact
    arithmetic, for fields of one shape where every cell of the effective
    field and of the damped blend [M_old + lamda * (M_new - M_old)] is
    nonzero, every cell of the array [update_M] returns has the norm of the
    cell of the input field. *)
Theorem update_M_preserves_norm (np_tanh : R -> R) (c : consts) (M H_eff : grid (V3 R))
    (lamda : R) nx ny nz :
  beta c = beta_inf -> wf3 M nx ny nz -> wf3 H_eff nx ny nz ->
  (forall i j k, i < nx -> j < ny -> k < nz -> norm3 (at3 H_eff i j k v0) <> 0%R) ->
  (forall i j k, i < nx -> j < ny -> k < nz ->
     norm3 (at3 (M_lamda_of np_tanh c M H_eff lamda) i j k v0) <> 0%R) ->
  forall i j k, i < nx -> j < ny -> k < nz ->
    norm3 (at3 (update_M np_tanh c M H_eff lamda) i j k v0) = norm3 (at3 M i j k v0).
Proof.
  intros Hb Hw Hh HH HL i j k Hi Hj Hk.
  unfold update_M, get_M; cbv zeta.
  destruct (allclose0 _); [reflexivity|].
  unfold norm_axis3.
  rewrite (at3_gzip3 _ _ _ nx ny nz _ _ _ v0 0%R) by wf_auto.
  rewrite (at3_gzip3 _ _ _ nx ny nz _ _ _ v0 0%R) by wf_auto.
  rewrite !(at3_gmap3 _ _ nx ny nz _ _ _ v0) by wf_auto.
  set (ml := at3 (M_lamda_of np_tanh c M H_eff lamda) i j k v0).
  set (mn := at3 (M_new_of np_tanh c M H_eff) i j k v0).
  assert (Hmn : norm3 mn = norm3 (at3 M i j k v0)).
  { unfold mn, M_new_of, get_Ms, norm_axis3; cbv zeta.
    rewrite (at3_gzip3 _ _ _ nx ny nz _ _ _ 0%R v0) by wf_auto.
    rewrite (at3_gzip3 _ _ _ nx ny nz _ _ _ 0%R v0) by wf_auto.
    rewrite (at3_gzip3 _ _ _ nx ny nz _ _ _ v0 0%R) by wf_auto.
    assert (HLr : at3 (L_result np_tanh c (gmap3 norm3 H_eff)) i j k 0%R = 1%R).
    { unfold L_result; rewrite Hb.
      replace (neqb beta_inf beta_inf) with true
        by (simpl; unfold R_eqb; destruct (Req_dec_T _ _); congruence).
      rewrite (at3_gmap3 _ _ nx ny nz _ _ _ 0%R) by wf_auto.
      unfold one; simpl; unfold R_lit; simpl; reflexivity. }
    rewrite HLr.
    rewrite !(at3_gmap3 _ _ nx ny nz _ _ _ v0) by wf_auto.
    rewrite (norm3_vmap_scale _ (norm3 (at3 M i j k v0))) by reflexivity.
    rewrite (norm3_vmap_scale _ 1) by reflexivity.
    rewrite (norm3_vmap_scale _ (/ norm3 (at3 H_eff i j k v0))%R)
      by (intros; simpl; unfold Rdiv; ring).
    pose proof (norm3_nonneg (at3 M i j k v0)).
    pose proof (norm3_nonneg (at3 H_eff i j k v0)).
    specialize (HH i j k Hi Hj Hk).
    rewrite Rabs_R1, (Rabs_pos_eq (norm3 (at3 M i j k v0))) by lra.
    rewrite Rabs_pos_eq by (left; apply Rinv_0_lt_compat; lra).
    field; exact HH. }
  rewrite <- Hmn.
  replace (vmap (fun x => nmul x (norm3 mn)) (vmap (fun x => ndiv x (norm3 ml)) ml))
    with (vmap (fun x => (x / norm3 ml * norm3 mn)%R) ml) by (destruct ml; reflexivity).
  apply norm3_rescale; [exact (HL i j k Hi Hj Hk)|apply norm3_nonneg].
Qed.

(** * Further properties of the code *)

(** ** Helpers *)

Lemma zipw_map_r {A B C} (f : A -> B -> C) (h : A -> B) l :
  zipw f l (map h l) = map (fun x => f x (h x)) l.
Proof. induction l; simpl; f_equal; auto. Qed.

Lemma zipw_diag {A C} (f : A -> A -> C) l : zipw f l l = map (fun x => f x x) l.
Proof. induction l; simpl; f_equal; auto. Qed.

Lemma gzip3_gmap3_r {A B C} (f : A -> B -> C) (h : A -> B) (g : grid A) :
  gzip3 f g (gmap3 h g) = gmap3 (fun x => f x (h x)) g.
Proof.
  unfold gzip3, gmap3; rewrite zipw_map_r; apply map_ext; intros p.
  rewrite zipw_map_r; apply map_ext; intros r; apply zipw_map_r.
Qed.

Lemma gzip3_diag {A C} (f : A -> A -> C) (g : grid A) :
  gzip3 f g g = gmap3 (fun x => f x x) g.
Proof.
  unfold gzip3, gmap3; rewrite zipw_diag; apply map_ext; intros p.
  rewrite zipw_diag; apply map_ext; intros r; apply zipw_diag.
Qed.

Lemma gmap3_gmap3 {A B C} (f : B -> C) (h : A -> B) (g : grid A) :
  gmap3 f (gmap3 h g) = gmap3 (fun x => f (h x)) g.
Proof.
  unfold gmap3; rewrite map_map; apply map_ext; intros p.
  rewrite map_map; apply map_ext; intros r; apply map_map.
Qed.

Lemma gmap3_ext {A B} (f h : A -> B) (g : grid A) :
  (forall x, f x = h x) -> gmap3 f g = gmap3 h g.
Proof.
  intros E; unfold gmap3; apply map_ext; intros p; apply map_ext; intros r; apply map_ext, E.
Qed.

Lemma flat3_gmap3 {A B} (f : A -> B) (g : grid A) : flat3 (gmap3 f g) = map f (flat3 g).
Proof. unfold flat3, gmap3; rewrite !concat_map; reflexivity. Qed.

Lemma flat3_const3 {A} (x : A) a b c : flat3 (const3 a b c x) = repeat x (a * b * c).
Proof.
  assert (C : forall B (y : B) n m, concat (repeat (repeat y n) m) = repeat y (m * n)).
  { intros B y n m; induction m as [|m IH]; [reflexivity|].
    cbn [repeat concat]; rewrite IH, <- repeat_app; f_equal; lia. }
  unfold flat3, const3; rewrite C, C; f_equal; lia.
Qed.

Lemma fold_left_Rplus_repeat (y acc : R) n :
  fold_left Rplus (repeat y n) acc = (acc + INR n * y)%R.
Proof.
  revert acc; induction n as [|n IH]; intros acc; cbn [repeat fold_left].
  - simpl; ring.
  - rewrite IH, S_INR; ring.
Qed.

Lemma np_sum_const3 (y : R) a b c :
  np_sum (flat3 (const3 a b c y)) = (INR (a * b * c) * y)%R.
Proof.
  unfold np_sum; rewrite flat3_const3.
  change (@n0 R Num_R) with 0%R; change (@nadd R Num_R) with Rplus.
  rewrite fold_left_Rplus_repeat; ring.
Qed.

Lemma allclose0_zeros (l : list R) : (forall x, In x l -> x = 0%R) -> allclose0 l = true.
Proof.
  intros Hl; unfold allclose0; apply forallb_forall; intros x Hx; rewrite (Hl x Hx).
  apply isclose_R0_0.
Qed.

Lemma nmax_zero : nmax 0%R 0%R = 0%R.
Proof. unfold nmax; simpl; destruct (R_leb 0 0); [reflexivity|]; ring. Qed.

Lemma fold_left_nmax_zeros (l : list R) :
  (forall x, In x l -> x = 0%R) -> fold_left nmax l 0%R = 0%R.
Proof.
  induction l as [|x l IH]; intros Hl; [reflexivity|].
  cbn [fold_left]; rewrite (Hl x (or_introl eq_refl)), nmax_zero.
  apply IH; intros y Hy; apply Hl; right; exact Hy.
Qed.

Lemma flatV_gmap3_v0 (g : grid (V3 R)) x :
  In x (flatV (gmap3 (fun _ => v0) g)) -> x = 0%R.
Proof.
  unfold flatV; rewrite flat3_gmap3, map_map; intros Hx.
  apply in_concat in Hx; destruct Hx as [l [Hl Hx]].
  apply in_map_iff in Hl; destruct Hl as [v [<- _]].
  simpl in Hx; intuition.
Qed.

(** [np.max(abs(g - g))] is [0] for a nonempty array. *)
Lemma np_max_diff_self (g : grid (V3 R)) a b c :
  wf3 g (S a) (S b) (S c) ->
  np_max (flatV (gmap3 (vmap nabs) (gzip3 (vzip nsub) g g))) = Some 0%R.
Proof.
  intros Hw.
  rewrite gzip3_diag, gmap3_gmap3.
  rewrite (gmap3_ext _ (fun _ => v0)).
  2:{ intros [x y z]; unfold vmap, vzip, v0; simpl.
      replace (x - x)%R with 0%R by ring; replace (y - y)%R with 0%R by ring;
      replace (z - z)%R with 0%R by ring; rewrite Rabs_R0; reflexivity. }
  assert (Hw' : wf3 (gmap3 (fun _ : V3 R => v0 (K := R)) g) (S a) (S b) (S c))
    by (apply wf3_gmap3; exact Hw).
  pose proof (flatV_gmap3_v0 g) as Hz.
  destruct (flatV_nonempty _ a b c Hw') as [x [l El]].
  rewrite El in *; unfold np_max.
  rewrite (Hz x (or_introl eq_refl)), fold_left_nmax_zeros; [reflexivity|].
  intros y Hy; apply Hz; right; exact Hy.
Qed.

Lemma Rdiv_scale (a x n : R) : a <> 0%R -> (a * x / (a * n) = x / n)%R.
Proof.
  intros Ha; unfold Rdiv; rewrite Rinv_mult.
  transitivity (x * / n * (a * / a))%R; [ring|rewrite Rinv_r by exact Ha; ring].
Qed.

Lemma norm3_pos (v : V3 R) : norm3 v <> 0%R -> (0 < norm3 v)%R.
Proof. intros Hn; pose proof (norm3_nonneg v); lra. Qed.

(** [get_m] of a field that is not all close to zero, cell by cell. *)
Lemma get_m_nonzero (M : grid (V3 R)) :
  allclose0 (flatV M) = false ->
  get_m M = gmap3 (fun v => vmap (fun x => (x / norm3 v)%R) v) M.
Proof.
  intros Hc; unfold get_m, get_M; rewrite Hc.
  unfold get_Ms, norm_axis3; rewrite gzip3_gmap3_r; reflexivity.
Qed.

(** ** [M.get_m] *)

(** When the field is not all close to zero, each cell of [get_m] with a
    nonzero magnitude is a unit vector, and [Ms] times it is the cell of
    the field. *)
Theorem get_m_unit (M : grid (V3 R)) nx ny nz i j k :
  wf3 M nx ny nz -> allclose0 (flatV M) = false ->
  i < nx -> j < ny -> k < nz -> norm3 (at3 M i j k v0) <> 0%R ->
  norm3 (at3 (get_m M) i j k v0) = 1%R /\
  vmap (Rmult (norm3 (at3 M i j k v0))) (at3 (get_m M) i j k v0) = at3 M i j k v0.
Proof.
  intros Hw Hc Hi Hj Hk Hn.
  rewrite get_m_nonzero by exact Hc.
  rewrite (at3_gmap3 _ _ nx ny nz _ _ _ v0 v0) by assumption.
  set (v := at3 M i j k v0) in *.
  split.
  - rewrite (norm3_vmap_scale _ (/ norm3 v)%R) by (intros; unfold Rdiv; ring).
    pose proof (norm3_nonneg v).
    rewrite Rabs_pos_eq by (left; apply Rinv_0_lt_compat; lra).
    field; exact Hn.
  - destruct v as [x y z]; unfold vmap; simpl; f_equal; field; exact Hn.
Qed.

(** [get_m], hence [laplace] and [curl], only see the direction of the
    field: scaling every cell by [a > 0] leaves them unchanged (when neither
    field is all close to zero). *)
Theorem get_m_scale_invariant (M : grid (V3 R)) (a : R) :
  (0 < a)%R ->
  allclose0 (flatV M) = false -> allclose0 (flatV (gmap3 (vmap (Rmult a)) M)) = false ->
  get_m (gmap3 (vmap (Rmult a)) M) = get_m M /\
  laplace (gmap3 (vmap (Rmult a)) M) = laplace M /\
  curl (gmap3 (vmap (Rmult a)) M) = curl M.
Proof.
  intros Ha Hc1 Hc2.
  assert (Hg : get_m (gmap3 (vmap (Rmult a)) M) = get_m M).
  { rewrite !get_m_nonzero by assumption.
    rewrite gmap3_gmap3; apply gmap3_ext; intros v.
    rewrite (norm3_vmap_scale _ a) by reflexivity.
    rewrite Rabs_pos_eq by lra.
    destruct v as [x y z]; unfold vmap; simpl; f_equal; apply Rdiv_scale; lra. }
  split; [exact Hg|split].
  - unfold laplace; rewrite Hg; reflexivity.
  - unfold curl; rewrite Hg; reflexivity.
Qed.

(** ** Arrays built from one field *)

Lemma zipw_map_map {A B C D} (f : B -> C -> D) (h1 : A -> B) (h2 : A -> C) l :
  zipw f (map h1 l) (map h2 l) = map (fun x => f (h1 x) (h2 x)) l.
Proof. induction l; simpl; f_equal; auto. Qed.

Lemma gzip3_gmap3_gmap3 {A B C D} (f : B -> C -> D) (h1 : A -> B) (h2 : A -> C) (g : grid A) :
  gzip3 f (gmap3 h1 g) (gmap3 h2 g) = gmap3 (fun x => f (h1 x) (h2 x)) g.
Proof.
  unfold gzip3, gmap3; rewrite zipw_map_map; apply map_ext; intros p.
  rewrite zipw_map_map; apply map_ext; intros r; apply zipw_map_map.
Qed.

Lemma gmap3_id {A} (g : grid A) : gmap3 (fun x => x) g = g.
Proof.
  unfold gmap3; rewrite <- (map_id g) at 2; apply map_ext; intros p.
  rewrite <- (map_id p) at 2; apply map_ext; intros r; apply map_id.
Qed.

(** The constant array of the shape of [g] is a map over [g]. *)
Lemma const3_gmap3 {A B} (g : grid A) (x : B) nx ny nz :
  wf3 g nx ny nz -> const3 nx ny nz x = gmap3 (fun _ => x) g.
Proof.
  intros [Hg Fg]; unfold const3, gmap3; subst nx.
  induction Fg as [|p g [Hp Fp] Fg IH]; [reflexivity|].
  cbn [length repeat map]; f_equal; [|exact IH].
  subst ny; clear IH Fg.
  induction Fp as [|r p Hr Fp IH]; [reflexivity|].
  cbn [length repeat map]; f_equal; [|exact IH].
  subst nz; clear; induction r; simpl; f_equal; auto.
Qed.

Lemma gzip3_const3_r {A B C} (f : A -> B -> C) (g : grid A) (x : B) nx ny nz :
  wf3 g nx ny nz -> gzip3 f g (const3 nx ny nz x) = gmap3 (fun y => f y x) g.
Proof.
  intros Hw; rewrite (const3_gmap3 g x nx ny nz Hw).
  rewrite <- (gmap3_id g) at 1; rewrite gzip3_gmap3_gmap3; reflexivity.
Qed.

Lemma norm3_eq0 (v : V3 R) : norm3 v = 0%R -> v = v0.
Proof.
  intros E; destruct v as [x y z].
  destruct (Req_dec x 0) as [->|Hx]; [|exfalso; apply (norm3_neq0 (mkV3 x y z) (or_introl Hx)), E].
  destruct (Req_dec y 0) as [->|Hy];
    [|exfalso; apply (norm3_neq0 (mkV3 0%R y z) (or_intror (or_introl Hy))), E].
  destruct (Req_dec z 0) as [->|Hz];
    [|exfalso; apply (norm3_neq0 (mkV3 0%R 0%R z) (or_intror (or_intror Hz))), E].
  reflexivity.
Qed.

(** The unit field of a uniform field that is not all close to zero. *)
Lemma get_m_const3_nonzero (v : V3 R) a b c :
  allclose0 (flatV (const3 a b c v)) = false ->
  norm3 v <> 0%R /\
  get_m (const3 a b c v) = const3 a b c (vmap (fun x => (x / norm3 v)%R) v).
Proof.
  intros Hc; split.
  - intros E; apply norm3_eq0 in E; subst v.
    rewrite allclose0_const3_zero in Hc; discriminate.
  - rewrite get_m_nonzero by exact Hc; rewrite gmap3_const3; reflexivity.
Qed.

Lemma laplace_const3 (v : V3 R) a b c :
  laplace (const3 (S a) (S b) (S c) v) = const3 (S a) (S b) (S c) v0.
Proof.
  unfold laplace; cbv zeta.
  destruct (get_m_const3 v (S a) (S b) (S c)) as [w ->].
  unfold zeros_like, second_diff.
  rewrite pad_edge3_const3, !slice3_const3, !gmap3_const3, !gzip3_const3,
    !gmap3_const3, !gzip3_const3.
  f_equal; destruct w as [wx wy wz]; unfold vzip, vmap, v0, two; simpl.
  unfold R_lit; simpl.
  f_equal; unfold Rdiv; ring.
Qed.

(** ** [Exchange] *)

Lemma exchange_field_const3 (A : R) (v : V3 R) a b c :
  effective_field (Exchange A) (const3 (S a) (S b) (S c) v) =
  Some (const3 (S a) (S b) (S c) v0).
Proof.
  unfold effective_field, get_M; destruct (allclose0 _).
  - unfold zeros_like; rewrite gmap3_const3; reflexivity.
  - unfold get_Ms, norm_axis3; rewrite laplace_const3, gmap3_const3, gzip3_const3.
    do 2 f_equal; unfold vmap, v0; simpl; f_equal; ring.
Qed.

(** For a uniform field of any nonempty shape, the exchange effective field
    is zero in every cell and the exchange energy is zero, whether or not
    the field is all close to zero. *)
Theorem exchange_uniform_zero (A : R) (v : V3 R) nx ny nz :
  0 < nx -> 0 < ny -> 0 < nz ->
  effective_field (Exchange A) (const3 nx ny nz v) = Some (const3 nx ny nz v0) /\
  energy (Exchange A) (const3 nx ny nz v) = Some 0%R.
Proof.
  intros Hx Hy Hz.
  destruct nx as [|a]; [lia|]; destruct ny as [|b]; [lia|]; destruct nz as [|c]; [lia|].
  pose proof (exchange_field_const3 A v a b c) as He.
  split; [exact He|].
  unfold energy, energy_density; rewrite He; cbv beta iota.
  unfold base_energy_density, get_Ms, norm_axis3.
  destruct (get_m_const3 v (S a) (S b) (S c)) as [w ->].
  rewrite gzip3_const3, gmap3_const3, gzip3_const3, !gmap3_const3, np_sum_const3.
  f_equal; destruct w as [wx wy wz]; unfold sum3, vmap, vzip, v0; simpl; ring.
Qed.

(** ** [Zeeman] *)

(** For a field of the module shape that is not all close to zero and has
    no zero cell, the Zeeman energy is [-mu0 * (M . H) * dV] summed over
    the cells: the magnitude [Ms] cancels against the normalisation of
    [get_m]. *)
Theorem zeeman_energy_sum (Hv : V3 R) (M : grid (V3 R)) :
  wf3 M Nx Ny Nz -> allclose0 (flatV M) = false ->
  (forall v, In v (flat3 M) -> norm3 v <> 0%R) ->
  energy (Zeeman Hv) M =
  Some (np_sum (map (fun v => (- mu0 * (vx v * vx Hv + vy v * vy Hv + vz v * vz Hv)
                               * (dx * dy * dz))%R) (flat3 M))).
Proof.
  intros Hw Hc Hn.
  unfold energy, energy_density; rewrite effective_field_Zeeman; cbv beta iota.
  f_equal; f_equal.
  unfold zeeman_energy_density, get_Ms, norm_axis3.
  rewrite get_m_nonzero by exact Hc.
  rewrite (gzip3_const3_r _ _ _ _ _ _ (wf3_gmap3 _ _ _ _ _ Hw)), gmap3_gmap3.
  rewrite gmap3_gmap3, gzip3_gmap3_gmap3, gmap3_gmap3, flat3_gmap3.
  apply map_ext_in; intros v Hv'; specialize (Hn v Hv').
  destruct v as [x y z]; unfold sum3, vmap, vzip; simpl.
  simpl in Hn; field; exact Hn.
Qed.

(** ** [M.curl] and [DMI] *)

(** Each cell of [curl] is the central-difference curl of the unit field
    with zero vectors outside the grid. *)
Lemma curl_cells (M : grid (V3 R)) :
  wf3 M Nx Ny Nz ->
  exists c, curl M = Some c /\ wf3 c Nx Ny Nz /\
    (forall i j k, i < Nx -> j < Ny -> k < Nz ->
       at3 c i j k v0 = curl_spec (get_m M) i j k).
Proof.
  intros Hw.
  pose proof (wf3_get_m M _ _ _ Hw) as Hm.
  assert (Hc : forall s0 s1 s2 t0 t1 t2 c h,
             wf3 (cdiff (pad_const3 v0 (get_m M)) (slice3 s0 s1 s2) (slice3 t0 t1 t2) c h)
               Nx Ny Nz)
    by (intros; exact (wf3_cdiff _ 59 59 11 _ _ _ _ _ _ _ _ Hm)).
  assert (Hz : wf3 (zeros3 (K := R) Nx Ny Nz) Nx Ny Nz) by apply wf3_const3.
  unfold curl; cbv zeta.
  rewrite !(iadd3_same (zeros3 Nx Ny Nz) _ Nx Ny Nz) by auto.
  rewrite !(iadd3_same _ _ Nx Ny Nz) by curl_wf Hc Hz Hm.
  eexists; split; [reflexivity|split].
  { curl_wf Hc Hz Hm. }
  intros i j k Hi Hj Hk.
  rewrite (at3_gzip3 _ _ _ Nx Ny Nz _ _ _ 0%R (0%R, 0%R)) by curl_wf Hc Hz Hm.
  rewrite (at3_gzip3 _ _ _ Nx Ny Nz _ _ _ 0%R 0%R) by curl_wf Hc Hz Hm.
  rewrite !(at3_gzip3 _ _ _ Nx Ny Nz _ _ _ 0%R 0%R) by curl_wf Hc Hz Hm.
  unfold zeros_like.
  rewrite !(at3_gmap3 _ _ Nx Ny Nz _ _ _ v0) by curl_wf Hc Hz Hm.
  unfold zeros3; rewrite !at3_const3 by auto.
  rewrite !at3_cdiff by auto.
  unfold curl_spec; cbv zeta; cbn [zoff fst snd vcomp vx vy vz v0].
  f_equal; simpl; ring.
Qed.

Lemma cell0_in {K} {NK : Num K} (u : V3 K) (i j k : Z) :
  (0 <= i < Z.of_nat Nx)%Z -> (0 <= j < Z.of_nat Ny)%Z -> (0 <= k < Z.of_nat Nz)%Z ->
  cell0 (const3 Nx Ny Nz u) i j k = u.
Proof.
  intros Hi Hj Hk; unfold cell0.
  replace ((0 <=? i)%Z && (i <? Z.of_nat Nx)%Z && (0 <=? j)%Z && (j <? Z.of_nat Ny)%Z
           && (0 <=? k)%Z && (k <? Z.of_nat Nz)%Z) with true
    by (symmetry; rewrite !andb_true_iff, !Z.leb_le, !Z.ltb_lt; lia).
  apply at3_const3; lia.
Qed.

Lemma cell0_below {K} {NK : Num K} (m : grid (V3 K)) (i j k : Z) :
  (i < 0)%Z -> cell0 m i j k = v0.
Proof.
  intros Hi; unfold cell0.
  replace (0 <=? i)%Z with false by (symmetry; apply Z.leb_gt; lia); reflexivity.
Qed.

(** For a uniform field (not all close to zero) of the module shape, [curl]
    and the DMI effective field vanish in every interior cell; on the face
    [i = 0] (away from the other faces) the zero padding makes the curl
    [(0, -u_z / (2 dx), u_y / (2 dx))] for the unit vector [u] of the field,
    not zero. *)
Theorem curl_uniform (v : V3 R) (Dc : R) :
  allclose0 (flatV (const3 Nx Ny Nz v)) = false ->
  let u := vmap (fun x => (x / norm3 v)%R) v in
  exists c h, curl (const3 Nx Ny Nz v) = Some c /\
    effective_field (DMI Dc) (const3 Nx Ny Nz v) = Some h /\
    (forall i j k, 0 < i -> i + 1 < Nx -> 0 < j -> j + 1 < Ny -> 0 < k -> k + 1 < Nz ->
       at3 c i j k v0 = v0 /\ at3 h i j k v0 = v0) /\
    (forall j k, 0 < j -> j + 1 < Ny -> 0 < k -> k + 1 < Nz ->
       at3 c 0 j k v0 = mkV3 0%R (- vz u / (2 * dx))%R (vy u / (2 * dx))%R).
Proof.
  intros Hc u.
  destruct (get_m_const3_nonzero v Nx Ny Nz Hc) as [Hn Hg].
  destruct (curl_cells _ (wf3_const3 Nx Ny Nz v)) as [c [Ec [Wc Hcell]]].
  rewrite Hg in Hcell; fold u in Hcell.
  assert (Hin : forall i j k, 0 < i -> i + 1 < Nx -> 0 < j -> j + 1 < Ny ->
                  0 < k -> k + 1 < Nz -> at3 c i j k v0 = v0).
  { intros i j k Hi1 Hi2 Hj1 Hj2 Hk1 Hk2.
    rewrite Hcell by lia; unfold curl_spec; cbv zeta.
    rewrite !cell0_in by (unfold Nx, Ny, Nz in *; lia).
    unfold v0; f_equal; simpl; unfold Rdiv; ring. }
  exists c; eexists; split; [exact Ec|split; [|split]].
  - unfold effective_field, get_M; rewrite Hc, Ec; reflexivity.
  - intros i j k Hi1 Hi2 Hj1 Hj2 Hk1 Hk2; split; [apply Hin; assumption|].
    unfold get_Ms, norm_axis3.
    rewrite (at3_gzip3 _ _ _ Nx Ny Nz _ _ _ 0%R v0)
      by (apply wf3_gmap3, wf3_const3 || exact Wc || lia).
    rewrite Hin by assumption.
    match goal with |- vmap (nmul ?t) _ = _ => generalize t end.
    intros t; unfold vmap, v0; simpl; f_equal; ring.
  - intros j k Hj1 Hj2 Hk1 Hk2.
    rewrite Hcell by (unfold Nx, Ny, Nz in *; lia); unfold curl_spec; cbv zeta.
    rewrite (cell0_below _ (Z.of_nat 0 + -1)) by lia.
    rewrite !cell0_in by (unfold Nx, Ny, Nz in *; lia).
    unfold v0; cbn [vx vy vz]; unfold two; simpl; unfold R_lit; simpl.
    f_equal; unfold Rdiv; ring.
Qed.

(** ** [Min_Driver.update_M] *)

(** One cell of [update_M] when the effective field is not all close to
    zero: the damped blend [ml] rescaled to the norm of the target [mn]. *)
Lemma update_M_cell (np_tanh : R -> R) (c : consts) (M Hf : grid (V3 R)) (lamda : R)
    nx ny nz i j k :
  allclose0 (flat3 (norm_axis3 Hf)) = false ->
  wf3 M nx ny nz -> wf3 Hf nx ny nz -> i < nx -> j < ny -> k < nz ->
  let m := at3 M i j k v0 in
  let h := at3 Hf i j k v0 in
  let l := at3 (L_result np_tanh c (norm_axis3 Hf)) i j k 0%R in
  let mn := vmap (Rmult (norm3 m)) (vmap (Rmult l) (vmap (fun x => (x / norm3 h)%R) h)) in
  let ml := vzip Rplus m (vmap (Rmult lamda) (vzip Rminus mn m)) in
  at3 (update_M np_tanh c M Hf lamda) i j k v0 =
  vmap (fun x => (x / norm3 ml * norm3 mn)%R) ml.
Proof.
  intros Hc Hw Hh Hi Hj Hk m h l mn ml.
  assert (Hmn : at3 (M_new_of np_tanh c M Hf) i j k v0 = mn).
  { unfold M_new_of, get_Ms, norm_axis3; cbv zeta.
    rewrite (at3_gzip3 _ _ _ nx ny nz _ _ _ 0%R v0) by wf_auto.
    rewrite (at3_gzip3 _ _ _ nx ny nz _ _ _ 0%R v0) by wf_auto.
    rewrite (at3_gzip3 _ _ _ nx ny nz _ _ _ v0 0%R) by wf_auto.
    rewrite !(at3_gmap3 _ _ nx ny nz _ _ _ v0) by wf_auto.
    reflexivity. }
  assert (Hml : at3 (M_lamda_of np_tanh c M Hf lamda) i j k v0 = ml).
  { unfold M_lamda_of, get_M.
    rewrite (at3_gzip3 _ _ _ nx ny nz _ _ _ v0 v0) by wf_auto.
    rewrite (at3_gmap3 _ _ nx ny nz _ _ _ v0) by wf_auto.
    rewrite (at3_gzip3 _ _ _ nx ny nz _ _ _ v0 v0) by wf_auto.
    rewrite Hmn; reflexivity. }
  unfold update_M, get_M; cbv zeta; rewrite Hc.
  unfold norm_axis3.
  rewrite (at3_gzip3 _ _ _ nx ny nz _ _ _ v0 0%R) by wf_auto.
  rewrite (at3_gzip3 _ _ _ nx ny nz _ _ _ v0 0%R) by wf_auto.
  rewrite !(at3_gmap3 _ _ nx ny nz _ _ _ v0) by wf_auto.
  rewrite Hmn, Hml; destruct ml; reflexivity.
Qed.

(** At the zero-temperature sentinel every cell of [L_result] is [1]. *)
Lemma L_result_inf (np_tanh : R -> R) (c : consts) (Hn : grid R) nx ny nz i j k :
  beta c = beta_inf -> wf3 Hn nx ny nz -> i < nx -> j < ny -> k < nz ->
  at3 (L_result np_tanh c Hn) i j k 0%R = 1%R.
Proof.
  intros Hb Hw Hi Hj Hk; unfold L_result; rewrite Hb.
  replace (neqb beta_inf beta_inf) with true
    by (simpl; unfold R_eqb; destruct (Req_dec_T _ _); congruence).
  rewrite (at3_gmap3 _ _ nx ny nz _ _ _ 0%R) by assumption.
  unfold one; simpl; unfold R_lit; simpl; reflexivity.
Qed.

(** At the zero-temperature sentinel, a cell whose field points along the
    effective field ([M = a * H_eff], [a > 0]) is left unchanged by
    [update_M], for any damping [lamda]. *)
Theorem update_M_aligned_fixed (np_tanh : R -> R) (c : consts) (M Hf : grid (V3 R))
    (lamda a : R) nx ny nz i j k :
  beta c = beta_inf -> wf3 M nx ny nz -> wf3 Hf nx ny nz ->
  i < nx -> j < ny -> k < nz ->
  norm3 (at3 Hf i j k v0) <> 0%R -> (0 < a)%R ->
  at3 M i j k v0 = vmap (Rmult a) (at3 Hf i j k v0) ->
  at3 (update_M np_tanh c M Hf lamda) i j k v0 = at3 M i j k v0.
Proof.
  intros Hb Hw Hh Hi Hj Hk Hn Ha Hm.
  destruct (allclose0 (flat3 (norm_axis3 Hf))) eqn:Hc.
  { unfold update_M, get_M; cbv zeta; rewrite Hc; reflexivity. }
  rewrite (update_M_cell _ _ _ _ _ nx ny nz) by assumption; cbv zeta.
  rewrite (L_result_inf _ _ _ nx ny nz) by (auto; apply wf3_gmap3; exact Hw || exact Hh).
  rewrite Hm.
  set (h := at3 Hf i j k v0) in *.
  rewrite (norm3_vmap_scale _ a) by reflexivity.
  pose proof (norm3_nonneg h).
  rewrite Rabs_pos_eq by lra.
  assert (Hmn : vmap (Rmult (a * norm3 h)) (vmap (Rmult 1) (vmap (fun x => (x / norm3 h)%R) h))
                = vmap (Rmult a) h)
    by (destruct h as [x y z]; unfold vmap; simpl; f_equal; field; exact Hn).
  rewrite Hmn.
  assert (Hml : vzip Rplus (vmap (Rmult a) h)
                  (vmap (Rmult lamda) (vzip Rminus (vmap (Rmult a) h) (vmap (Rmult a) h)))
                = vmap (Rmult a) h)
    by (destruct h as [x y z]; unfold vmap, vzip; simpl; f_equal; ring).
  rewrite Hml, (norm3_vmap_scale _ a) by reflexivity.
  rewrite Rabs_pos_eq by lra.
  assert (Ha' : (a * norm3 h)%R <> 0%R) by (apply Rmult_integral_contrapositive; lra).
  destruct h as [x y z]; unfold vmap; simpl; f_equal; field; repeat split; try lra; try assumption.
Qed.

(** At the zero-temperature sentinel with [lamda = 0], [update_M] leaves
    every cell with a nonzero field and a nonzero effective field
    unchanged. *)
Theorem update_M_lamda0_identity (np_tanh : R -> R) (c : consts) (M Hf : grid (V3 R))
    nx ny nz i j k :
  beta c = beta_inf -> wf3 M nx ny nz -> wf3 Hf nx ny nz ->
  i < nx -> j < ny -> k < nz ->
  norm3 (at3 M i j k v0) <> 0%R -> norm3 (at3 Hf i j k v0) <> 0%R ->
  at3 (update_M np_tanh c M Hf 0%R) i j k v0 = at3 M i j k v0.
Proof.
  intros Hb Hw Hh Hi Hj Hk Hm Hn.
  destruct (allclose0 (flat3 (norm_axis3 Hf))) eqn:Hc.
  { unfold update_M, get_M; cbv zeta; rewrite Hc; reflexivity. }
  rewrite (update_M_cell _ _ _ _ _ nx ny nz) by assumption; cbv zeta.
  rewrite (L_result_inf _ _ _ nx ny nz) by (auto; apply wf3_gmap3; exact Hw || exact Hh).
  set (m := at3 M i j k v0) in *; set (h := at3 Hf i j k v0) in *.
  pose proof (norm3_nonneg m); pose proof (norm3_nonneg h).
  rewrite (norm3_vmap_scale _ (norm3 m)) by reflexivity.
  rewrite (norm3_vmap_scale _ 1) by reflexivity.
  rewrite (norm3_vmap_scale _ (/ norm3 h)%R) by (intros; unfold Rdiv; ring).
  rewrite Rabs_R1, (Rabs_pos_eq (norm3 m)) by lra.
  rewrite (Rabs_pos_eq (/ norm3 h)) by (left; apply Rinv_0_lt_compat; lra).
  replace (norm3 m * (1 * (/ norm3 h * norm3 h)))%R with (norm3 m) by (field; exact Hn).
  match goal with |- vmap _ ?ml = _ => replace ml with m end.
  2:{ destruct m as [x y z]; unfold vmap, vzip; simpl; f_equal; ring. }
  destruct m as [x y z]; unfold vmap; simpl; f_equal; field; exact Hm.
Qed.

(** At the zero-temperature sentinel with the full step [lamda = 1] (and the
    effective field not all close to zero), [update_M] turns every cell with
    a nonzero field and a nonzero effective field along the effective field,
    keeping its magnitude: the cell becomes [|M| / |H_eff| * H_eff]. *)
Theorem update_M_full_step (np_tanh : R -> R) (c : consts) (M Hf : grid (V3 R))
    nx ny nz i j k :
  beta c = beta_inf -> allclose0 (flat3 (norm_axis3 Hf)) = false ->
  wf3 M nx ny nz -> wf3 Hf nx ny nz -> i < nx -> j < ny -> k < nz ->
  norm3 (at3 M i j k v0) <> 0%R -> norm3 (at3 Hf i j k v0) <> 0%R ->
  at3 (update_M np_tanh c M Hf 1%R) i j k v0 =
  vmap (Rmult (norm3 (at3 M i j k v0) / norm3 (at3 Hf i j k v0)))%R (at3 Hf i j k v0).
Proof.
  intros Hb Hc Hw Hh Hi Hj Hk Hm Hn.
  rewrite (update_M_cell _ _ _ _ _ nx ny nz) by assumption; cbv zeta.
  rewrite (L_result_inf _ _ _ nx ny nz) by (auto; apply wf3_gmap3; exact Hw || exact Hh).
  set (m := at3 M i j k v0) in *; set (h := at3 Hf i j k v0) in *.
  pose proof (norm3_nonneg m); pose proof (norm3_nonneg h).
  assert (Hmn : vmap (Rmult (norm3 m)) (vmap (Rmult 1) (vmap (fun x => (x / norm3 h)%R) h))
                = vmap (Rmult (norm3 m / norm3 h)) h)
    by (destruct h as [x y z]; unfold vmap; simpl; f_equal; field; exact Hn).
  rewrite Hmn.
  match goal with |- vmap _ ?ml = _ => replace ml with (vmap (Rmult (norm3 m / norm3 h)) h) end.
  2:{ destruct h as [x y z]; destruct m as [p q r]; unfold vmap, vzip; simpl; f_equal; ring. }
  rewrite (norm3_vmap_scale _ (norm3 m / norm3 h)) by reflexivity.
  pose proof (norm3_pos m Hm); pose proof (norm3_pos h Hn).
  assert (Hq : (0 < norm3 m / norm3 h)%R) by (apply Rdiv_lt_0_compat; assumption).
  rewrite Rabs_pos_eq by lra.
  destruct h as [x y z]; unfold vmap; simpl; f_equal; field; (split; [exact Hn|exact Hm]).
Qed.

(** The damped blend of one cell. *)
Lemma M_lamda_cell (np_tanh : R -> R) (c : consts) (M Hf : grid (V3 R)) (lamda : R)
    nx ny nz i j k :
  wf3 M nx ny nz -> wf3 Hf nx ny nz -> i < nx -> j < ny -> k < nz ->
  let m := at3 M i j k v0 in
  let h := at3 Hf i j k v0 in
  let l := at3 (L_result np_tanh c (norm_axis3 Hf)) i j k 0%R in
  let mn := vmap (Rmult (norm3 m)) (vmap (Rmult l) (vmap (fun x => (x / norm3 h)%R) h)) in
  at3 (M_lamda_of np_tanh c M Hf lamda) i j k v0 =
  vzip Rplus m (vmap (Rmult lamda) (vzip Rminus mn m)).
Proof.
  intros Hw Hh Hi Hj Hk m h l mn.
  unfold M_lamda_of, get_M.
  rewrite (at3_gzip3 _ _ _ nx ny nz _ _ _ v0 v0) by wf_auto.
  rewrite (at3_gmap3 _ _ nx ny nz _ _ _ v0) by wf_auto.
  rewrite (at3_gzip3 _ _ _ nx ny nz _ _ _ v0 v0) by wf_auto.
  unfold M_new_of, get_Ms, norm_axis3; cbv zeta.
  rewrite (at3_gzip3 _ _ _ nx ny nz _ _ _ 0%R v0) by wf_auto.
  rewrite (at3_gzip3 _ _ _ nx ny nz _ _ _ 0%R v0) by wf_auto.
  rewrite (at3_gzip3 _ _ _ nx ny nz _ _ _ v0 0%R) by wf_auto.
  rewrite !(at3_gmap3 _ _ nx ny nz _ _ _ v0) by wf_auto.
  reflexivity.
Qed.

(** Below the sentinel (finite [beta]), [update_M] gives every cell where
    the effective field and the blend are nonzero the norm
    [Ms * |Langevin(beta * mu0 * |H_eff|)|], not [Ms]: the magnitude is
    scaled by the Langevin factor. *)
Theorem update_M_norm_finite_beta (np_tanh : R -> R) (c : consts) (M Hf : grid (V3 R))
    (lamda : R) nx ny nz i j k :
  beta c <> beta_inf -> allclose0 (flat3 (norm_axis3 Hf)) = false ->
  wf3 M nx ny nz -> wf3 Hf nx ny nz -> i < nx -> j < ny -> k < nz ->
  norm3 (at3 Hf i j k v0) <> 0%R ->
  norm3 (at3 (M_lamda_of np_tanh c M Hf lamda) i j k v0) <> 0%R ->
  norm3 (at3 (update_M np_tanh c M Hf lamda) i j k v0) =
  (norm3 (at3 M i j k v0) *
   Rabs (Langevin np_tanh (beta c * mu0 * norm3 (at3 Hf i j k v0))))%R.
Proof.
  intros Hb Hc Hw Hh Hi Hj Hk Hn Hl.
  rewrite (M_lamda_cell _ _ _ _ _ nx ny nz) in Hl by assumption.
  rewrite (update_M_cell _ _ _ _ _ nx ny nz) by assumption; cbv zeta in *.
  assert (HL : at3 (L_result np_tanh c (norm_axis3 Hf)) i j k 0%R =
               Langevin np_tanh (beta c * mu0 * norm3 (at3 Hf i j k v0))%R).
  { unfold L_result.
    replace (neqb (beta c) beta_inf) with false
      by (simpl; unfold R_eqb; destruct (Req_dec_T _ _) as [E|]; [exfalso; apply Hb; exact E|reflexivity]).
    unfold norm_axis3; rewrite gmap3_gmap3.
    rewrite (at3_gmap3 _ _ nx ny nz _ _ _ v0) by assumption; reflexivity. }
  rewrite HL in *.
  rewrite norm3_rescale by (exact Hl || apply norm3_nonneg).
  set (m := at3 M i j k v0); set (h := at3 Hf i j k v0) in *.
  set (L := Langevin np_tanh (beta c * mu0 * norm3 h)%R).
  pose proof (norm3_nonneg m); pose proof (norm3_pos h Hn).
  rewrite (norm3_vmap_scale _ (norm3 m)) by reflexivity.
  rewrite (norm3_vmap_scale _ L) by reflexivity.
  rewrite (norm3_vmap_scale _ (/ norm3 h)%R) by (intros; unfold Rdiv; ring).
  rewrite (Rabs_pos_eq (norm3 m)) by lra.
  rewrite (Rabs_pos_eq (/ norm3 h)) by (left; apply Rinv_0_lt_compat; lra).
  field; exact Hn.
Qed.

(** ** [Min_Driver.Mean_field_difference] *)

Section Loop.
Context {K : Type} {NK : Num K}.
Variable np_tanh : K -> K.

(** The effective field and energy a pass returns are those of the array
    it stores. *)
Lemma mf_step_cal c tol o (s : store) H_eff s' H' E' b :
  mf_step np_tanh c tol o s H_eff = Some (s', H', E', b) ->
  cal_effective_field c (s' o) = Some (H', E').
Proof.
  unfold mf_step; cbv zeta; rewrite !set_M_same.
  destruct (cal_effective_field c _) as [[h E]|] eqn:Ec; [|discriminate].
  destruct (np_max _) as [x|]; [|discriminate].
  intros Eq; injection Eq as <- <- <- _; rewrite set_M_same; exact Ec.
Qed.

Lemma mf_states_cal c tol o k : forall (s : store) H_eff E s' H' E',
  cal_effective_field c (s o) = Some (H_eff, E) ->
  mf_states np_tanh c tol o k s H_eff E = Some (s', H', E') ->
  cal_effective_field c (s' o) = Some (H', E').
Proof.
  induction k as [|k IH]; intros s H_eff E s' H' E' Hc Hk.
  - cbn in Hk; injection Hk as <- <- <-; exact Hc.
  - rewrite mf_states_front in Hk.
    destruct (mf_step np_tanh c tol o s H_eff) as [[[[s1 H1] E1] b]|] eqn:Es;
      [|discriminate].
    exact (IH _ _ _ _ _ _ (mf_step_cal _ _ _ _ _ _ _ _ _ Es) Hk).
Qed.

End Loop.

(** For a field of the module shape [Mean_field_difference] returns. *)
Lemma Mean_field_difference_ok {K} {NK : Num K} (np_tanh : K -> K) (c : consts)
    (tol : K) (s : store) (o : nat) :
  wf3 (s o) Nx Ny Nz ->
  exists s' E n, Mean_field_difference np_tanh c tol s o = Some (s', E, n).
Proof.
  intros Hw.
  destruct (cal_effective_field_ok c (s o) Hw) as [H0 [E0 [Ec Hh]]].
  destruct (mf_loop_spec np_tanh c tol o (maxiter c) 0 s H0 E0 Hw Hh)
    as [s' [E' [m [El _]]]].
  exists s', E', m; unfold Mean_field_difference; rewrite Ec; exact El.
Qed.

(** The energy [Mean_field_difference] returns is the total energy of the
    array it leaves in the object, and the loop's effective field is that
    array's effective field (for a field of the module shape). *)
Theorem relaxation_energy_consistent {K} {NK : Num K} (np_tanh : K -> K) (c : consts)
    (tol : K) (s : store) (o : nat) :
  wf3 (s o) Nx Ny Nz ->
  exists s' E n H', Mean_field_difference np_tanh c tol s o = Some (s', E, n) /\
    cal_effective_field c (s' o) = Some (H', E).
Proof.
  intros Hw.
  destruct (cal_effective_field_ok c (s o) Hw) as [H0 [E0 [Ec Hh]]].
  destruct (mf_loop_spec np_tanh c tol o (maxiter c) 0 s H0 E0 Hw Hh)
    as [s' [E' [m [El [_ [_ [_ Hd]]]]]]].
  assert (Hst : exists k H', mf_states np_tanh c tol o k s H0 E0 = Some (s', H', E'))
    by (destruct Hd as [[_ [_ [_ [H' Hst]]]] | [_ [H' Hst]]]; eauto).
  destruct Hst as [k [H' Hst]].
  exists s', E', m, H'; split.
  - unfold Mean_field_difference; rewrite Ec; exact El.
  - exact (mf_states_cal np_tanh c tol o k _ _ _ _ _ _ Ec Hst).
Qed.

(** A field that [update_M] leaves unchanged under its own effective field
    is returned at once: with [0 <= tol] the first stopping test succeeds,
    the count is [0] and the energy is that of the input field. *)
Theorem relaxation_fixed_point (np_tanh : R -> R) (c : consts) (tol : R) (s : store) (o : nat)
    (H0 : grid (V3 R)) (E0 : R) :
  wf3 (s o) Nx Ny Nz -> (0 <= tol)%R -> 0 < maxiter c ->
  cal_effective_field c (s o) = Some (H0, E0) ->
  update_M np_tanh c (s o) H0 lamda_default = s o ->
  exists s', Mean_field_difference np_tanh c tol s o = Some (s', E0, 0) /\
    forall o', s' o' = s o'.
Proof.
  intros Hw Ht Hm Ec Hu.
  unfold Mean_field_difference; rewrite Ec; cbn [fst snd].
  destruct (maxiter c) as [|n] eqn:En; [lia|].
  cbn [mf_loop]; rewrite En; cbn [Nat.ltb Nat.leb].
  unfold mf_step; cbv zeta; rewrite !set_M_same, Hu, Ec.
  rewrite (np_max_diff_self _ 59 59 11) by (apply wf3_get_m; exact Hw).
  cbn [fst snd].
  replace (isclose rtol_default tol 0%R n0) with true.
  - eexists; split; [reflexivity|].
    intros o'; unfold set_M; destruct (Nat.eqb_spec o' o) as [->|]; reflexivity.
  - symmetry; apply isclose_R0_0.
Qed.

(** ** Concrete inputs *)

Lemma isclose0_false (x : R) :
  (1 <= Rabs x)%R -> isclose rtol_default atol_default x 0%R = false.
Proof.
  intros Hx; rewrite isclose_R0; unfold atol_default; simpl; unfold R_leb, R_eqb.
  destruct (Rle_dec _ _) as [Hle|].
  - exfalso; revert Hle; unfold R_lit; simpl; lra.
  - destruct (Req_dec_T x 0) as [->|]; [|reflexivity].
    exfalso; rewrite Rabs_R0 in Hx; lra.
Qed.

Lemma allclose0_false_In (l : list R) x :
  In x l -> (1 <= Rabs x)%R -> allclose0 l = false.
Proof.
  intros Hl Hx; unfold allclose0; cbv zeta.
  destruct (forallb _ l) eqn:E; [|reflexivity].
  rewrite forallb_forall in E; specialize (E x Hl).
  rewrite isclose0_false in E by exact Hx; discriminate.
Qed.

Lemma In_flat3_const3 {A} (x : A) a b c : In x (flat3 (const3 (S a) (S b) (S c) x)).
Proof. rewrite flat3_const3; simpl; left; reflexivity. Qed.

Lemma allclose0_const3_false (v : V3 R) a b c :
  (1 <= Rabs (vx v) \/ 1 <= Rabs (vy v) \/ 1 <= Rabs (vz v))%R ->
  allclose0 (flatV (const3 (S a) (S b) (S c) v)) = false.
Proof.
  assert (Hv : forall x, In x (vcomps v) -> In x (flatV (const3 (S a) (S b) (S c) v)))
    by (intros x Hx; unfold flatV; apply in_concat; exists (vcomps v);
        split; [apply in_map, In_flat3_const3|exact Hx]).
  intros [H|[H|H]]; eapply allclose0_false_In; try exact H; apply Hv; simpl; auto.
Qed.

Lemma allclose0_flat3_const3_false (x : R) a b c :
  (1 <= Rabs x)%R -> allclose0 (flat3 (const3 (S a) (S b) (S c) x)) = false.
Proof. intros H; eapply allclose0_false_In; [apply In_flat3_const3|exact H]. Qed.

Lemma norm3_z (a : R) : (0 <= a)%R -> norm3 (mkV3 0%R 0%R a) = a.
Proof.
  intros Ha; unfold norm3; simpl.
  replace (0 * 0 + 0 * 0 + a * a)%R with (a * a)%R by ring; apply sqrt_square; exact Ha.
Qed.

Lemma norm3_x (a : R) : (0 <= a)%R -> norm3 (mkV3 a 0%R 0%R) = a.
Proof.
  intros Ha; unfold norm3; simpl.
  replace (a * a + 0 * 0 + 0 * 0)%R with (a * a)%R by ring; apply sqrt_square; exact Ha.
Qed.

Lemma gzip3_const3_l {A B C} (f : A -> B -> C) (x : A) (g : grid B) nx ny nz :
  wf3 g nx ny nz -> gzip3 f (const3 nx ny nz x) g = gmap3 (f x) g.
Proof.
  intros Hw; rewrite (const3_gmap3 g x nx ny nz Hw).
  rewrite <- (gmap3_id g) at 2; rewrite gzip3_gmap3_gmap3; reflexivity.
Qed.

(** With [D = 0] the DMI effective field of a uniform field is zero. *)
Lemma dmi_field_const3_D0 (Dc : R) (v : V3 R) :
  Dc = 0%R -> effective_field (DMI Dc) (const3 Nx Ny Nz v) = Some (const3 Nx Ny Nz v0).
Proof.
  intros HD; unfold effective_field, get_M; destruct (allclose0 _).
  - unfold zeros_like; rewrite gmap3_const3; reflexivity.
  - destruct (proj1 (curl_shape (const3 Nx Ny Nz v) 59 59 11 (wf3_const3 _ _ _ _)) eq_refl)
      as [c0 [Ec Wc]].
    rewrite Ec; unfold get_Ms, norm_axis3.
    rewrite gmap3_const3, (gzip3_const3_l _ _ _ _ _ _ Wc), (const3_gmap3 c0 v0 _ _ _ Wc).
    apply f_equal, gmap3_ext; intros [x y z]; subst Dc.
    unfold vmap, v0; simpl; f_equal; unfold Rdiv; ring.
Qed.

(** With [D = 0], the effective field of a uniform field of the module
    shape is the external field [H] in every cell. *)
Lemma cal_uniform_D0 (c : consts) (v : V3 R) :
  D c = 0%R ->
  exists E, cal_effective_field c (const3 Nx Ny Nz v) = Some (const3 Nx Ny Nz (H c), E).
Proof.
  intros HD; pose proof (wf3_const3 Nx Ny Nz v) as Hw.
  unfold cal_effective_field, energy; cbv zeta.
  rewrite (exchange_field_const3 _ _ 59 59 11), effective_field_Zeeman,
    (dmi_field_const3_D0 _ _ HD).
  destruct (wf3_energy_density (Exchange (A c)) _ Hw) as [w1 [F1 _]].
  destruct (wf3_energy_density (Zeeman (H c)) _ Hw) as [w2 [F2 _]].
  destruct (wf3_energy_density (DMI (D c)) _ Hw) as [w3 [F3 _]].
  rewrite F1, F2, F3; eexists; do 2 f_equal.
  rewrite !gzip3_const3; f_equal; destruct (H c); unfold vzip, v0; simpl; f_equal; ring.
Qed.

(** * Witnesses *)

Lemma laplace_uniform_witness :
  0 < 1 /\ laplace (const3 1 1 1 (mkV3 1%R 2%R 3%R)) = const3 1 1 1 v0.
Proof. split; [lia|]. apply (laplace_uniform _ 1 1 1); lia. Defined.

Lemma update_M_stationary_witness :
  let M := const3 2 1 1 (mkV3 (one (K := PrimFloat.float)) n0 n0) in
  let Hz := const3 2 1 1 (v0 (K := PrimFloat.float)) in
  allclose0 (flat3 (norm_axis3 Hz)) = true /\
  update_M (fun x => x) source_consts M Hz lamda_default = M.
Proof.
  intros M Hz; split; [vm_compute; reflexivity|].
  apply update_M_stationary; vm_compute; reflexivity.
Defined.

Lemma global_shape_fixed_witness :
  let M := const3 Nx Ny Nz (v0 (K := R)) in
  wf3 M Nx Ny Nz /\ (exists c, curl M = Some c /\ wf3 c Nx Ny Nz).
Proof.
  intros M; split; [apply wf3_const3|].
  apply (global_shape_fixed M Nx Ny Nz); try (unfold Nx, Ny, Nz; lia); try reflexivity.
  apply wf3_const3.
Defined.

Lemma curl_central_dirichlet_witness :
  let M := const3 Nx Ny Nz (mkV3 1%R 0%R 0%R) in
  wf3 M Nx Ny Nz /\ exists c, curl M = Some c /\ wf3 c Nx Ny Nz.
Proof.
  intros M; split; [apply wf3_const3|].
  destruct (curl_central_dirichlet M (wf3_const3 _ _ _ _)) as [c [E [W _]]].
  exists c; split; assumption.
Defined.

Lemma update_M_preserves_norm_witness :
  let M := const3 1 1 1 (mkV3 1%R 0%R 0%R) in
  let Hf := const3 1 1 1 (mkV3 0%R 0%R 1%R) in
  norm3 (at3 (update_M (fun x => x) source_consts M Hf lamda_default) 0 0 0 v0) =
  norm3 (at3 M 0 0 0 v0).
Proof.
  intros M Hf.
  apply (update_M_preserves_norm _ _ _ _ _ 1 1 1); try lia.
  - reflexivity.
  - apply wf3_const3.
  - apply wf3_const3.
  - intros i j k Hi Hj Hk; unfold Hf; rewrite at3_const3 by lia.
    apply norm3_neq0; simpl; lra.
  - intros i j k Hi Hj Hk.
    unfold M_lamda_of, M_new_of, L_result, get_M, get_Ms, norm_axis3, M, Hf; cbv zeta.
    replace (neqb (beta source_consts) beta_inf) with true
      by (simpl; unfold R_eqb; destruct (Req_dec_T _ _); congruence).
    repeat first [rewrite gmap3_const3 | rewrite gzip3_const3].
    rewrite at3_const3 by lia.
    apply norm3_neq0; left; simpl; unfold R_lit; simpl; lra.
Defined.


Lemma zero_field_fixed_witness :
  0 < 1 /\ laplace (const3 1 1 1 (v0 (K := R))) = const3 1 1 1 v0.
Proof.
  split; [lia|].
  exact (proj1 (zero_field_fixed 1 1 1 ltac:(lia) ltac:(lia) ltac:(lia))).
Defined.

Lemma relaxation_terminates_witness :
  let s := fun _ : nat => const3 Nx Ny Nz (mkV3 1%R 0%R 0%R) in
  wf3 (s 0) Nx Ny Nz /\
  exists s' E n,
    Mean_field_difference (fun x : R => x) source_consts tol_default s 0 = Some (s', E, n) /\
    n <= maxiter (source_consts (K := R)).
Proof.
  intros s; split; [apply wf3_const3|].
  destruct (relaxation_terminates (fun x : R => x) source_consts tol_default s 0
              (wf3_const3 _ _ _ _)) as [s' [E [n [H1 [H2 _]]]]].
  exists s', E, n; split; [exact H1|exact H2].
Defined.

Lemma relaxation_deterministic_witness :
  let s1 := fun _ : nat => const3 Nx Ny Nz (mkV3 1%R 0%R 0%R) in
  let s2 := fun o : nat => match o with
                           | 1 => const3 Nx Ny Nz (mkV3 1%R 0%R 0%R)
                           | _ => const3 2 2 2 (mkV3 0%R 1%R 0%R)
                           end in
  s1 0 = s2 1 /\
  exists s1' E1 n1 s2' E2 n2,
    Mean_field_difference (fun x : R => x) source_consts tol_default s1 0 = Some (s1', E1, n1) /\
    Mean_field_difference (fun x : R => x) source_consts tol_default s2 1 = Some (s2', E2, n2) /\
    n1 = n2 /\ E1 = E2 /\ s1' 0 = s2' 1.
Proof.
  intros s1 s2; split; [reflexivity|].
  pose proof (relaxation_deterministic (fun x : R => x) source_consts tol_default
                s1 s2 0 1 eq_refl) as Hd.
  destruct (Mean_field_difference_ok (fun x : R => x) source_consts tol_default s1 0
              (wf3_const3 _ _ _ _)) as [a [Ea [na H1]]].
  destruct (Mean_field_difference_ok (fun x : R => x) source_consts tol_default s2 1
              (wf3_const3 _ _ _ _)) as [b [Eb [nb H2]]].
  rewrite H1, H2 in Hd.
  exists a, Ea, na, b, Eb, nb; tauto.
Defined.

Lemma get_m_unit_witness :
  let M := const3 1 1 1 (mkV3 1%R 0%R 0%R) in
  allclose0 (flatV M) = false /\ norm3 (at3 (get_m M) 0 0 0 v0) = 1%R.
Proof.
  intros M.
  assert (Hc : allclose0 (flatV M) = false)
    by (apply allclose0_const3_false; left; simpl; rewrite Rabs_R1; lra).
  split; [exact Hc|].
  apply (get_m_unit M 1 1 1 0 0 0); try lia; try exact Hc.
  - apply wf3_const3.
  - unfold M; rewrite at3_const3 by lia; apply norm3_neq0; simpl; lra.
Defined.

Lemma get_m_scale_invariant_witness :
  let M := const3 1 1 1 (mkV3 1%R 0%R 0%R) in
  allclose0 (flatV (gmap3 (vmap (Rmult 2)) M)) = false /\
  get_m (gmap3 (vmap (Rmult 2)) M) = get_m M.
Proof.
  intros M.
  assert (Hc2 : allclose0 (flatV (gmap3 (vmap (Rmult 2)) M)) = false).
  { unfold M; rewrite gmap3_const3; apply allclose0_const3_false; left; simpl.
    rewrite Rmult_1_r, Rabs_pos_eq by lra; lra. }
  split; [exact Hc2|].
  apply (get_m_scale_invariant M 2); [lra| |exact Hc2].
  apply allclose0_const3_false; left; simpl; rewrite Rabs_R1; lra.
Defined.

Lemma exchange_uniform_zero_witness :
  0 < 2 /\ energy (Exchange 1%R) (const3 2 2 2 (mkV3 1%R 0%R 0%R)) = Some 0%R.
Proof. split; [lia|]. apply (exchange_uniform_zero 1 _ 2 2 2); lia. Defined.

Lemma zeeman_energy_sum_witness :
  let M := const3 Nx Ny Nz (mkV3 0%R 0%R 1%R) in
  allclose0 (flatV M) = false /\
  energy (Zeeman (mkV3 0%R 0%R 1%R)) M =
  Some (np_sum (map (fun v => (- mu0 * (vx v * 0 + vy v * 0 + vz v * 1) * (dx * dy * dz))%R)
                    (flat3 M))).
Proof.
  intros M.
  assert (Hc : allclose0 (flatV M) = false)
    by (apply allclose0_const3_false; right; right; simpl; rewrite Rabs_R1; lra).
  split; [exact Hc|].
  apply zeeman_energy_sum; [apply wf3_const3|exact Hc|].
  intros v Hv; unfold M in Hv; rewrite flat3_const3 in Hv; apply repeat_spec in Hv; subst v.
  apply norm3_neq0; simpl; lra.
Defined.

Lemma curl_uniform_witness :
  allclose0 (flatV (const3 Nx Ny Nz (mkV3 0%R 0%R 1%R))) = false /\
  exists c, curl (const3 Nx Ny Nz (mkV3 0%R 0%R 1%R)) = Some c /\ at3 c 1 1 1 v0 = v0.
Proof.
  assert (Hc : allclose0 (flatV (const3 Nx Ny Nz (mkV3 0%R 0%R 1%R))) = false)
    by (apply allclose0_const3_false; right; right; simpl; rewrite Rabs_R1; lra).
  split; [exact Hc|].
  destruct (curl_uniform _ 0%R Hc) as [c [h [Ec [_ [Hin _]]]]].
  exists c; split; [exact Ec|].
  apply (Hin 1 1 1); unfold Nx, Ny, Nz; lia.
Defined.

Lemma update_M_aligned_fixed_witness :
  let M := const3 1 1 1 (mkV3 0%R 0%R 2%R) in
  let Hf := const3 1 1 1 (mkV3 0%R 0%R 1%R) in
  at3 M 0 0 0 v0 = vmap (Rmult 2) (at3 Hf 0 0 0 v0) /\
  at3 (update_M (fun x => x) source_consts M Hf lamda_default) 0 0 0 v0 = mkV3 0%R 0%R 2%R.
Proof.
  intros M Hf.
  assert (Ha : at3 M 0 0 0 v0 = vmap (Rmult 2) (at3 Hf 0 0 0 v0))
    by (unfold M, Hf; rewrite !at3_const3 by lia; unfold vmap; simpl; f_equal; ring).
  split; [exact Ha|].
  rewrite (update_M_aligned_fixed _ _ M Hf _ 2 1 1 1); try lia; try exact Ha.
  - unfold M; apply at3_const3; lia.
  - reflexivity.
  - apply wf3_const3.
  - apply wf3_const3.
  - unfold Hf; rewrite at3_const3 by lia; apply norm3_neq0; simpl; lra.
  - lra.
Defined.

Lemma update_M_lamda0_identity_witness :
  let M := const3 1 1 1 (mkV3 1%R 0%R 0%R) in
  let Hf := const3 1 1 1 (mkV3 0%R 0%R 1%R) in
  norm3 (at3 M 0 0 0 v0) <> 0%R /\
  at3 (update_M (fun x => x) source_consts M Hf 0%R) 0 0 0 v0 = mkV3 1%R 0%R 0%R.
Proof.
  intros M Hf.
  assert (Hm : norm3 (at3 M 0 0 0 v0) <> 0%R)
    by (unfold M; rewrite at3_const3 by lia; apply norm3_neq0; simpl; lra).
  split; [exact Hm|].
  rewrite (update_M_lamda0_identity _ _ M Hf 1 1 1); try lia; try exact Hm.
  - unfold M; apply at3_const3; lia.
  - reflexivity.
  - apply wf3_const3.
  - apply wf3_const3.
  - unfold Hf; rewrite at3_const3 by lia; apply norm3_neq0; simpl; lra.
Defined.

Lemma update_M_full_step_witness :
  let M := const3 1 1 1 (mkV3 2%R 0%R 0%R) in
  let Hf := const3 1 1 1 (mkV3 0%R 0%R 1%R) in
  allclose0 (flat3 (norm_axis3 Hf)) = false /\
  at3 (update_M (fun x => x) source_consts M Hf 1%R) 0 0 0 v0 = vmap (Rmult 2) (mkV3 0%R 0%R 1%R).
Proof.
  intros M Hf.
  assert (Hc : allclose0 (flat3 (norm_axis3 Hf)) = false).
  { unfold Hf, norm_axis3; rewrite gmap3_const3, norm3_z by lra.
    apply allclose0_flat3_const3_false; rewrite Rabs_R1; lra. }
  split; [exact Hc|].
  rewrite (update_M_full_step _ _ M Hf 1 1 1); try lia; try exact Hc.
  - unfold M, Hf; rewrite !at3_const3 by lia.
    rewrite norm3_z, norm3_x by lra.
    unfold Rdiv; rewrite Rinv_1, Rmult_1_r; reflexivity.
  - reflexivity.
  - apply wf3_const3.
  - apply wf3_const3.
  - unfold M; rewrite at3_const3 by lia; apply norm3_neq0; simpl; lra.
  - unfold Hf; rewrite at3_const3 by lia; apply norm3_neq0; simpl; lra.
Defined.

Lemma update_M_norm_finite_beta_witness :
  let c := {| beta := 1%R; D := 0%R; A := 0%R; H := v0; maxiter := 1 |} in
  let M := const3 1 1 1 (mkV3 1%R 0%R 0%R) in
  let Hf := const3 1 1 1 (mkV3 0%R 0%R 1%R) in
  beta c <> beta_inf /\
  norm3 (at3 (update_M (fun x => x) c M Hf 0%R) 0 0 0 v0) =
  (1 * Rabs (Langevin (fun x => x) (1 * mu0 * 1)))%R.
Proof.
  intros c M Hf.
  assert (Hb : beta c <> beta_inf).
  { change (1%R <> R_lit 9 99).
    replace (R_lit 9 99) with (IZR (9 * 10 ^ 99)) by reflexivity.
    intros E; change 1%R with (IZR 1) in E; apply eq_IZR in E.
    vm_compute in E; discriminate E. }
  split; [exact Hb|].
  rewrite (update_M_norm_finite_beta _ c M Hf 0 1 1 1); try lia; try exact Hb.
  - unfold M, Hf; rewrite !at3_const3 by lia.
    rewrite norm3_z, norm3_x by lra; reflexivity.
  - unfold Hf, norm_axis3; rewrite gmap3_const3, norm3_z by lra.
    apply allclose0_flat3_const3_false; rewrite Rabs_R1; lra.
  - apply wf3_const3.
  - apply wf3_const3.
  - unfold Hf; rewrite at3_const3 by lia; apply norm3_neq0; simpl; lra.
  - rewrite (M_lamda_cell _ _ _ _ _ 1 1 1) by (apply wf3_const3 || lia).
    unfold M; rewrite at3_const3 by lia.
    apply norm3_neq0; left; simpl; lra.
Defined.

Lemma relaxation_energy_consistent_witness :
  let s := fun _ : nat => const3 Nx Ny Nz (mkV3 1%R 0%R 0%R) in
  wf3 (s 0) Nx Ny Nz /\
  exists s' E n H', Mean_field_difference (fun x : R => x) source_consts tol_default s 0
                      = Some (s', E, n) /\
    cal_effective_field source_consts (s' 0) = Some (H', E).
Proof.
  intros s; split; [apply wf3_const3|].
  apply relaxation_energy_consistent; apply wf3_const3.
Defined.

Lemma relaxation_fixed_point_witness :
  let c := {| beta := beta_inf; D := 0%R; A := nlit 878 (-14); H := v0; maxiter := 12 * 1000 |} in
  let s := fun _ : nat => const3 Nx Ny Nz (mkV3 0%R 0%R 1%R) in
  exists H0 E0, cal_effective_field c (s 0) = Some (H0, E0) /\
    update_M (fun x => x) c (s 0) H0 lamda_default = s 0 /\
    exists s', Mean_field_difference (fun x => x) c tol_default s 0 = Some (s', E0, 0).
Proof.
  intros c s.
  destruct (cal_uniform_D0 c (mkV3 0%R 0%R 1%R) eq_refl) as [E0 Ec].
  assert (Hu : update_M (fun x => x) c (s 0) (const3 Nx Ny Nz v0) lamda_default = s 0).
  { unfold update_M; cbv zeta.
    replace (allclose0 (flat3 (norm_axis3 (const3 Nx Ny Nz (v0 (K := R)))))) with true;
      [reflexivity|].
    symmetry; apply allclose0_zeros; intros x Hx.
    unfold norm_axis3 in Hx; rewrite gmap3_const3, flat3_const3 in Hx.
    apply repeat_spec in Hx; subst x; unfold norm3, v0; simpl.
    replace (0 * 0 + 0 * 0 + 0 * 0)%R with 0%R by ring; apply sqrt_0. }
  exists (const3 Nx Ny Nz v0), E0; split; [exact Ec|split; [exact Hu|]].
  assert (Ht : (0 <= tol_default)%R) by (unfold tol_default; simpl; unfold R_lit; simpl; lra).
  assert (Hm : 0 < maxiter c) by (simpl; lia).
  destruct (relaxation_fixed_point (fun x => x) c tol_default s 0 _ _
              (wf3_const3 _ _ _ _) Ht Hm Ec Hu) as [s' [E _]].
  exists s'; exact E.
Defined.


(** * Counterexamples (binary64, as numpy computes) *)

(** C9: the guard of [update_M] is global, so a single cell where the
    effective field vanishes is divided by its zero norm: with the field
    (1, 0, 0) in both cells of a 2 x 1 x 1 grid and the effective field zero
    in the first cell and (0, 0, 1) in the second, the blend is nonzero in
    every cell and the norms of the effective field are not all close to
    zero, yet the first cell of the result is nan, not of norm 1. *)
Lemma update_M_norm_counterexample :
  let c := source_consts (K := PrimFloat.float) in
  let M := const3 2 1 1 (mkV3 (one (K := PrimFloat.float)) n0 n0) in
  let Hf := [[[v0]]; [[mkV3 n0 n0 (one (K := PrimFloat.float))]]] in
  let tanh := fun x : PrimFloat.float => x in
  beta c = beta_inf /\ wf3 M 2 1 1 /\ wf3 Hf 2 1 1 /\
  allclose0 (flat3 (norm_axis3 Hf)) = false /\
  (forall i j k, i < 2 -> j < 1 -> k < 1 ->
     norm3 (at3 (M_lamda_of tanh c M Hf lamda_default) i j k v0) <> n0) /\
  norm3 (at3 (update_M tanh c M Hf lamda_default) 0 0 0 v0) <> norm3 (at3 M 0 0 0 v0).
Proof.
  intros c M Hf tanh.
  split; [reflexivity|].
  split; [apply wf3_const3|].
  split; [split; [reflexivity|repeat constructor]|].
  split; [vm_compute; reflexivity|].
  split.
  - intros i j k Hi Hj Hk.
    assert (j = 0) by lia; assert (k = 0) by lia; subst j k.
    destruct i as [|[|i]]; try lia;
      intros E; apply (f_equal PrimFloat.is_zero) in E; vm_compute in E; discriminate.
  - intros E; apply (f_equal PrimFloat.is_nan) in E; vm_compute in E; discriminate.
Qed.

(** C1: for the all-zero field of the module shape the Zeeman effective
    field is not zero (its z component is [B / mu0]); and the relaxation does
    not stop at the first check: the first [update_M] divides the zero blend
    by its zero norm, the field becomes nan and the stopping test fails. *)
Lemma zero_field_counterexample :
  let Zf := const3 Nx Ny Nz (v0 (K := PrimFloat.float)) in
  effective_field (Zeeman (H source_consts)) Zf <> Some (zeros_like Zf) /\
  match cal_effective_field source_consts Zf with
  | Some (H0, E0) =>
      mf_test (fun x => x) source_consts tol_default 0 0 (fun _ => Zf) H0 E0
  | None => None
  end = Some false.
Proof.
  intros Zf; split.
  - intros E.
    apply (f_equal (fun r => match r with
                             | Some g => PrimFloat.is_zero (vz (at3 g 0 0 0 v0))
                             | None => true
                             end)) in E.
    vm_compute in E; discriminate.
  - vm_compute; reflexivity.
Qed.

(** C2: for a field whose shape is not the module shape, here 2 x 2 x 2,
    [Mean_field_difference] does not return: [curl] (through the DMI
    effective field) raises on the in-place broadcast into the (60, 60, 12)
    temporaries. *)
Lemma relaxation_shape_counterexample :
  Mean_field_difference (fun x => x) source_consts tol_default
    (fun _ => const3 2 2 2 (mkV3 (one (K := PrimFloat.float)) n0 n0)) 0 = None.
Proof. vm_compute; reflexivity. Qed.
